(** * An LRU cache over [container/list]: model and verification

    The program is the Go package [cache] (lru.go): a recency list
    ([lru.items], a [container/list] doubly linked list), a map from keys to
    list elements ([lru.lookup]), a capacity and a touch counter.

    The embedding keeps the pointer structure of the program: list elements
    live in a heap and are named by their address, so that the recency list
    and the lookup table share them, and an element that has left the list
    can still be reached through the table. *)

From Stdlib Require Import ZArith.
From stdpp Require Import base option list gmap.

Local Open Scope Z_scope.

(** ** Go's [int]: 64 bits (the layout comments of [LRU] and [LRUItem]
    count 8 bytes for an [int]), two's complement, silent wrap-around *)

Definition int_min : Z := - 2 ^ 63.
Definition int_max : Z := 2 ^ 63 - 1.

Definition int_wrap (z : Z) : Z := (z + 2 ^ 63) mod 2 ^ 64 - 2 ^ 63.
Definition int_add (x y : Z) : Z := int_wrap (x + y).
Definition int_sub (x y : Z) : Z := int_wrap (x - y).

(** ** Outcomes of a routine: a result and a new state, or a run-time panic *)

Inductive result (St A : Type) : Type :=
| Ok (a : A) (s : St)
| Panic.
Arguments Ok {St A} a s.
Arguments Panic {St A}.

(** The two error values of the package (errors.go). *)
Inductive error : Type := ELRUINVALTYPE | ELRUFATAL.

(** Addresses of [*list.Element]; a possibly nil pointer is an [option ptr]. *)
Abbreviation ptr := nat.

Section Cache.

(** Keys and values are Go [interface{}] values.  The non-nil ones are drawn
    from [K] (comparable and hashable: a map key) and [V]; the nil interface
    is [None]. *)
Context {K : Type} {EqK : EqDecision K} {CountK : Countable K} {V : Type}.

(** [LRUItem]: the container of one cache entry. *)
Record LRUItem : Type := mkLRUItem {
  Key : option K;
  Value : option V;
  Count : Z
}.

(** What the [Value interface{}] field of a list element holds: a
    [*LRUItem], or a value of some other dynamic type.  Each [*LRUItem] is
    allocated in [set] together with the element that boxes it and is never
    shared, so the record is kept in the element's cell. *)
Inductive any : Type :=
| AnyItem (item : LRUItem)
| AnyOther.

(** [list.Element].  [elem_list] says whether the element's [list] field is
    the list [lru.items] (it is nil once the element has been removed). *)
Record Element : Type := mkElement {
  elem_list : bool;
  elem_Value : any
}.

(** [LRU].  [heap] is the store of all list elements allocated so far (an
    element's address is its index); [items] is the recency list from front
    to back.  The mutex is left out: the model is sequential. *)
Record LRU : Type := mkLRU {
  heap : list Element;
  items : list ptr;
  lookup : gmap (option K) ptr;
  capacity : Z;
  count : Z
}.

Definition set_heap (f : list Element → list Element) (s : LRU) : LRU :=
  mkLRU (f (heap s)) (items s) (lookup s) (capacity s) (count s).
Definition set_items (f : list ptr → list ptr) (s : LRU) : LRU :=
  mkLRU (heap s) (f (items s)) (lookup s) (capacity s) (count s).
Definition set_lookup (f : gmap (option K) ptr → gmap (option K) ptr)
    (s : LRU) : LRU :=
  mkLRU (heap s) (items s) (f (lookup s)) (capacity s) (count s).
Definition set_capacity (c : Z) (s : LRU) : LRU :=
  mkLRU (heap s) (items s) (lookup s) c (count s).
Definition set_count (f : Z → Z) (s : LRU) : LRU :=
  mkLRU (heap s) (items s) (lookup s) (capacity s) (f (count s)).

(** ** The monad of routines on an [LRU] *)

Definition M (A : Type) : Type := LRU → result LRU A.

Definition ret {A} (a : A) : M A := λ s, Ok a s.
Definition bind {A B} (m : M A) (f : A → M B) : M B :=
  λ s, match m s with
       | Ok a s' => f a s'
       | Panic => Panic
       end.
Definition panic {A} : M A := λ _, Panic.
Definition gets {A} (f : LRU → A) : M A := λ s, Ok (f s) s.
Definition modify (f : LRU → LRU) : M unit := λ s, Ok tt (f s).
Definition when (b : bool) (m : M unit) : M unit := if b then m else ret tt.

Notation "'let*' x := m 'in' f" := (bind m (λ x, f))
  (at level 10, x name, m at level 100, f at level 200, only parsing).
Notation "m ;; f" := (bind m (λ _, f))
  (at level 100, f at level 200, right associativity, only parsing).

(** Pointer access.  A Go pointer never dangles; an address outside the
    heap has no counterpart in the program and is made a panic here. *)
Definition deref (p : ptr) : M Element :=
  λ s, match heap s !! p with
       | Some e => Ok e s
       | None => Panic
       end.
Definition store (p : ptr) (e : Element) : M unit :=
  modify (set_heap (λ h, <[p := e]> h)).

(** [e.Value.( *LRUItem )], the one-result form: panics on another type. *)
Definition item_at (p : ptr) : M LRUItem :=
  let* e := deref p in
  match elem_Value e with
  | AnyItem it => ret it
  | AnyOther => panic
  end.
(** A write through an [*LRUItem]. *)
Definition modify_item (p : ptr) (f : LRUItem → LRUItem) : M unit :=
  let* e := deref p in
  match elem_Value e with
  | AnyItem it => store p (mkElement (elem_list e) (AnyItem (f it)))
  | AnyOther => panic
  end.

(** ** [container/list] (Go standard library), on the list [lru.items] *)

(** [l.Len()].  The elements are distinct heap objects, so their number fits
    an [int]. *)
Definition list_Len (s : LRU) : Z := Z.of_nat (length (items s)).

(** [l.Back()]: the last element, nil when the list is empty. *)
Definition list_Back (s : LRU) : option ptr := last (items s).

(** [l.Front()]: the first element, nil when the list is empty. *)
Definition list_Front (s : LRU) : option ptr := head (items s).

(** [l.Init()]: the list is emptied; the elements are not touched. *)
Definition list_Init : M unit := modify (set_items (λ _, [])).

(** [l.PushFront(v)]: a new element holding [v], linked at the front. *)
Definition list_PushFront (v : any) : M ptr :=
  let* p := gets (λ s, length (heap s)) in
  modify (set_heap (λ h, h ++ [mkElement true v])) ;;
  modify (set_items (λ l, p :: l)) ;;
  ret p.

(** [l.MoveToFront(e)]: nothing happens when [e] is not an element of [l]
    ([e.list != l]) or is already the front. *)
Definition list_MoveToFront (p : ptr) : M unit :=
  let* e := deref p in
  let* front := gets (λ s, head (items s)) in
  when (elem_list e && negb (bool_decide (front = Some p)))
    (modify (set_items (λ l, p :: filter (λ q, q ≠ p) l))).

(** [l.Remove(e)]: unlinks [e] when it is an element of [l], clears its
    [list] field, and returns [e.Value] in either case.  A nil [e] is a nil
    pointer dereference. *)
Definition list_Remove (e : option ptr) : M any :=
  match e with
  | None => panic
  | Some p =>
      let* el := deref p in
      when (elem_list el)
        (modify (set_items (λ l, filter (λ q, q ≠ p) l)) ;;
         store p (mkElement false (elem_Value el))) ;;
      ret (elem_Value el)
  end.

(** ** lru.go

    [popFront] and [dump] are called by none of the public operations; they
    come after [popBack] and [remove] below. *)

Definition defaultCAPACITY : Z := 16.

(** [NewLRU] *)
Definition NewLRU (capacity : Z) : LRU :=
  let lru := mkLRU [] [] ∅ (int_sub capacity 1) 0 in
  if bool_decide (Cache.capacity lru ≤ 0)
  then set_capacity defaultCAPACITY lru
  else lru.

(** [popBack]: the result is the address of the cell of the popped item. *)
Definition popBack : M ptr :=
  let* b := gets list_Back in
  let* v := list_Remove b in
  match b, v with
  | Some p, AnyItem _ => ret p
  | _, _ => panic
  end.

(** [popFront] *)
Definition popFront : M ptr :=
  let* f := gets list_Front in
  let* v := list_Remove f in
  match f, v with
  | Some p, AnyItem _ => ret p
  | _, _ => panic
  end.

(** [evict] *)
Definition evict : M unit :=
  let* item := popBack in
  let* it := item_at item in
  modify (set_lookup (λ m, delete (Key it) m)) ;;
  modify_item item (λ it, mkLRUItem None (Value it) (Count it)) ;;
  modify_item item (λ it, mkLRUItem (Key it) None (Count it)).

(** [set] *)
Definition set (key : option K) (value : option V) : M (bool * option error) :=
  modify (set_count (λ c, int_add c 1)) ;;
  let* cnt := gets list_Len in
  let* elem := gets (λ s, lookup s !! key) in
  match elem with
  | None =>
      let* cap := gets capacity in
      when (bool_decide (cnt > cap)) evict ;;
      let* c := gets count in
      let* elem := list_PushFront (AnyItem (mkLRUItem key value c)) in
      modify (set_lookup (λ m, <[key := elem]> m)) ;;
      ret (true, None)
  | Some elem =>
      let* e := deref elem in
      match elem_Value e with
      | AnyOther => ret (false, Some ELRUINVALTYPE)
      | AnyItem _ =>
          let* cap := gets capacity in
          when (bool_decide (cnt > cap)) evict ;;
          modify_item elem
            (λ it, mkLRUItem (Key it) (Value it) (int_add (Count it) 1)) ;;
          modify_item elem (λ it, mkLRUItem (Key it) value (Count it)) ;;
          list_MoveToFront elem ;;
          ret (false, None)
      end
  end.

(** [get]: the returned [*LRUItem] is the address of its cell. *)
Definition get (key : option K) : M (option ptr * option error) :=
  modify (set_count (λ c, int_add c 1)) ;;
  let* elem := gets (λ s, lookup s !! key) in
  match elem with
  | None => ret (None, None)
  | Some elem =>
      let* _ := item_at elem in
      modify_item elem
        (λ it, mkLRUItem (Key it) (Value it) (int_add (Count it) 1)) ;;
      list_MoveToFront elem ;;
      ret (Some elem, None)
  end.

(** [readEntery] *)
Definition readEntery (key : option K) : M (option ptr) :=
  gets (λ s, lookup s !! key).

(** [read] *)
Definition read (key : option K) : M (option ptr) :=
  let* elem := gets (λ s, lookup s !! key) in
  match elem with
  | None => ret None
  | Some elem => let* _ := item_at elem in ret (Some elem)
  end.

(** [reset] *)
Definition reset : M unit :=
  list_Init ;;
  modify (set_count (λ _, 0)) ;;
  modify (set_lookup (λ _, ∅)).

(** [remove] *)
Definition remove (key : option K) : M bool :=
  let* item := readEntery key in
  match item with
  | None => ret false
  | Some p => let* _ := list_Remove (Some p) in ret true
  end.

(** [dump].  The loop runs [cnt] times, [cnt] the length read before it.
    Each turn takes [lru.items.Remove(lru.items.Front()).( *LRUItem )]: a
    possibly nil [*LRUItem], here the address of the item's cell (the
    pointers boxed by [set] are never nil).  The result is the slice of the
    items taken, or nil with [ELRUFATAL]. *)
Definition dump_take : M (option ptr) :=
  let* f := gets list_Front in
  let* v := list_Remove f in
  match f, v with
  | Some p, AnyItem _ => ret (Some p)
  | _, _ => panic
  end.

Fixpoint dump_loop (n : nat) (acc : list ptr)
    : M (option (list ptr) * option error) :=
  match n with
  | O => ret (Some acc, None)
  | S n =>
      let* value := dump_take in
      match value with
      | None => ret (None, Some ELRUFATAL)
      | Some p => dump_loop n (acc ++ [p])
      end
  end.

Definition dump : M (option (list ptr) * option error) :=
  let* cnt := gets list_Len in
  dump_loop (Z.to_nat cnt) [].

(** [K], [V], [C]: the accessors of an item. *)
Definition K_ (lrui : LRUItem) : option K := Key lrui.
Definition V_ (lrui : LRUItem) : option V := Value lrui.
Definition C_ (lrui : LRUItem) : Z := Count lrui.

(** ** The public operations (each runs its routine under the lock;
    [Set] is a keyword of Rocq, whence [Set_]) *)

Definition Set_ (key : option K) (value : option V) : M (bool * option error) :=
  set key value.

Definition Get (key : option K) : M (option V * option error) :=
  let* r := get key in
  match r with
  | (Some item, None) => let* it := item_at item in ret (Value it, None)
  | (_, err) => ret (None, err)
  end.

Definition Read (key : option K) : M (option V) :=
  let* item := read key in
  match item with
  | Some item => let* it := item_at item in ret (Value it)
  | None => ret None
  end.

Definition Remove (key : option K) : M bool := remove key.

Definition Purge : M unit := reset.

Definition Len : M Z := gets list_Len.

(** ** Sequences of public operations *)

Inductive op : Type :=
| OpSet (key : option K) (value : option V)
| OpGet (key : option K)
| OpRead (key : option K)
| OpRemove (key : option K)
| OpPurge
| OpLen.

Definition call (o : op) : M unit :=
  match o with
  | OpSet key value => Set_ key value ;; ret tt
  | OpGet key => Get key ;; ret tt
  | OpRead key => Read key ;; ret tt
  | OpRemove key => Remove key ;; ret tt
  | OpPurge => Purge
  | OpLen => Len ;; ret tt
  end.

Fixpoint run (os : list op) : M unit :=
  match os with
  | [] => ret tt
  | o :: os => call o ;; run os
  end.

(** ** What the cache holds, and the invariant of the representation *)

(** The item boxed by the element at [p]. *)
Definition item_of (s : LRU) (p : ptr) : option LRUItem :=
  match heap s !! p with
  | Some (mkElement _ (AnyItem it)) => Some it
  | _ => None
  end.

(** [k] is cached at [p] with entry [it]: the Lookup Table maps [k] to the
    element [p], which is linked in the Ordered Index and boxes [it]. *)
Definition cached_at (s : LRU) (k : option K) (p : ptr) (it : LRUItem) : Prop :=
  lookup s !! k = Some p ∧ p ∈ items s
  ∧ heap s !! p = Some (mkElement true (AnyItem it)) ∧ Key it = k.

(** No handle of the Lookup Table is stale: each is linked in the Ordered
    Index. *)
Definition tidy (s : LRU) : Prop :=
  ∀ k p, lookup s !! k = Some p → p ∈ items s.

(** The calls [Set(k1, v1); ...; Set(kn, vn)]. *)
Definition sets (kvs : list (option K * option V)) : list op :=
  (λ kv, OpSet kv.1 kv.2) <$> kvs.

(** The number of [Set] and [Get] calls of [os] since its last [Purge],
    counted from [n]. *)
Fixpoint touches (os : list op) (n : nat) : nat :=
  match os with
  | [] => n
  | OpSet _ _ :: os => touches os (S n)
  | OpGet _ :: os => touches os (S n)
  | OpPurge :: os => touches os 0
  | _ :: os => touches os n
  end.

(** The capacity property of section 8 of the specification, for an engine
    made with capacity [N], the pairs [kvs] set in order and one more pair
    [k'], [v']: after [kvs] the length is [N] and every key reads back; the
    further [Set] is an insertion, the length is still [N], the key that
    went is the one at the back of the Ordered Index, which is the first key
    of [kvs], and every other key reads back. *)
Definition fills_then_evicts_oldest (N : nat)
    (kvs : list (option K * option V)) (k' : option K) (v' : option V) : Prop :=
  ∃ s, run (sets kvs) (NewLRU (Z.of_nat N)) = Ok tt s
    ∧ Len s = Ok (Z.of_nat N) s
    ∧ (∀ k v, (k, v) ∈ kvs → Read k s = Ok v s)
    ∧ ∃ s', Set_ k' v' s = Ok (true, None) s'
        ∧ Len s' = Ok (Z.of_nat N) s'
        ∧ Read k' s' = Ok v' s'
        ∧ ∃ p it, list_Back s = Some p ∧ item_of s p = Some it
            ∧ head (kvs.*1) = Some (Key it)
            ∧ lookup s' !! Key it = None
            ∧ Read (Key it) s' = Ok None s'
            ∧ ∀ k v, (k, v) ∈ kvs → k ≠ Key it → Read k s' = Ok v s'.

(** The outcomes of [set] on a state that satisfies the invariant, by the
    branch taken: the key is new or not, the count exceeds the capacity or
    not, and in the last case whether the element evicted is the one of the
    key itself. *)
Inductive set_outcome : LRU → option K → option V → bool → LRU → Prop :=
| set_insert h l m c n k v :
    m !! k = None →
    ¬ Z.of_nat (length l) > c →
    set_outcome (mkLRU h l m c n) k v true
      (mkLRU (h ++ [mkElement true (AnyItem (mkLRUItem k v (int_add n 1)))])
         (length h :: l) (<[k := length h]> m) c (int_add n 1))
| set_insert_evict h l m c n k v q itq :
    m !! k = None →
    Z.of_nat (length l) > c →
    last l = Some q →
    h !! q = Some (mkElement true (AnyItem itq)) →
    set_outcome (mkLRU h l m c n) k v true
      (mkLRU
         (<[q := mkElement false (AnyItem (mkLRUItem None None (Count itq)))]> h
          ++ [mkElement true (AnyItem (mkLRUItem k v (int_add n 1)))])
         (length h :: filter (λ x, x ≠ q) l)
         (<[k := length h]> (delete (Key itq) m)) c (int_add n 1))
| set_update h l m c n k v p b it :
    m !! k = Some p →
    h !! p = Some (mkElement b (AnyItem it)) →
    ¬ Z.of_nat (length l) > c →
    set_outcome (mkLRU h l m c n) k v false
      (mkLRU
         (<[p := mkElement b
                   (AnyItem (mkLRUItem (Key it) v (int_add (Count it) 1)))]> h)
         (if b then p :: filter (λ x, x ≠ p) l else l) m c (int_add n 1))
| set_update_evict_other h l m c n k v p b it q itq :
    m !! k = Some p →
    h !! p = Some (mkElement b (AnyItem it)) →
    Z.of_nat (length l) > c →
    last l = Some q →
    h !! q = Some (mkElement true (AnyItem itq)) →
    q ≠ p →
    set_outcome (mkLRU h l m c n) k v false
      (mkLRU
         (<[p := mkElement b
                   (AnyItem (mkLRUItem (Key it) v (int_add (Count it) 1)))]>
            (<[q := mkElement false
                      (AnyItem (mkLRUItem None None (Count itq)))]> h))
         (if b then p :: filter (λ x, x ≠ p) (filter (λ x, x ≠ q) l)
          else filter (λ x, x ≠ q) l)
         (delete (Key itq) m) c (int_add n 1))
| set_update_evict_self h l m c n k v p it :
    m !! k = Some p →
    h !! p = Some (mkElement true (AnyItem it)) →
    Z.of_nat (length l) > c →
    last l = Some p →
    set_outcome (mkLRU h l m c n) k v false
      (mkLRU
         (<[p := mkElement false
                   (AnyItem (mkLRUItem None v (int_add (Count it) 1)))]> h)
         (filter (λ x, x ≠ p) l) (delete (Key it) m) c (int_add n 1)).

(** [hasPositiveLRUS] (lru_test.go).  [mask] is a byte, and in
    [(mask & (0x1 << i)) >> i] the constant takes the type of [mask]: the
    shift is done on a byte.  [byte_bit mask i] is the value of [bit] at
    turn [i]; the loop reads [s[i].capacity] for [i] from 0 to
    [len(s) - 1]. *)
Definition byte_bit (mask : Z) (i : nat) : Z :=
  Z.shiftr (Z.land mask (Z.shiftl 1 (Z.of_nat i) mod 2 ^ 8)) (Z.of_nat i).

Fixpoint hasPositiveLRUS_from (i : nat) (s : list LRU) (mask : Z) : bool :=
  match s with
  | [] => true
  | lru :: s =>
      if bool_decide (byte_bit mask i = 1) && bool_decide (capacity lru < 0)
      then false
      else hasPositiveLRUS_from (S i) s mask
  end.

Definition hasPositiveLRUS (s : list LRU) (mask : Z) : bool :=
  hasPositiveLRUS_from 0 s mask.

(** The invariant kept by every operation.  Note what it does not say: a
    handle of the Lookup Table need not be linked in the Ordered Index. *)
Record wf (s : LRU) : Prop := mkWf {
  wf_capacity : 1 ≤ capacity s;
  wf_nodup : NoDup (items s);
  wf_items : ∀ p, p ∈ items s →
    ∃ it, heap s !! p = Some (mkElement true (AnyItem it))
          ∧ lookup s !! Key it = Some p;
  wf_lookup : ∀ k p, lookup s !! k = Some p →
    ∃ b it, heap s !! p = Some (mkElement b (AnyItem it))
            ∧ Key it = k ∧ (b = true → p ∈ items s);
  wf_len : list_Len s ≤ capacity s + 1
}.

(** Unfolding the monad and the pointer accesses. *)
Ltac unfold_monad :=
  unfold when, bind, gets, modify, ret, panic,
    set_heap, set_items, set_lookup, set_capacity, set_count; simpl.

Ltac unfold_access :=
  unfold modify_item, item_at, store, deref; unfold_monad.

Ltac read_cell :=
  repeat (rewrite list_lookup_insert_eq by (rewrite ?length_insert; done);
          simpl);
  rewrite ?list_insert_insert_eq.

(** ** Lists without duplicates *)

Lemma filter_ne_notin (p : ptr) (l : list ptr) :
  p ∉ l → filter (λ q, q ≠ p) l = l.
Proof.
  induction l as [|q l IH]; intros Hp; [done|].
  apply not_elem_of_cons in Hp as [Hne Hp].
  rewrite filter_cons_True by congruence. by rewrite IH.
Qed.

Lemma filter_ne_snoc (p : ptr) (l : list ptr) :
  NoDup (l ++ [p]) → filter (λ q, q ≠ p) (l ++ [p]) = l.
Proof.
  intros Hnd. apply NoDup_app in Hnd as (_ & Hdis & _).
  rewrite filter_app, filter_ne_notin.
  - rewrite filter_cons_False by (intros Hne; by apply Hne).
    by rewrite filter_nil, app_nil_r.
  - intros Hin. apply (Hdis p Hin). by left.
Qed.

Lemma move_front_perm (p : ptr) (l : list ptr) :
  NoDup l → p ∈ l → p :: filter (λ q, q ≠ p) l ≡ₚ l.
Proof.
  intros Hnd Hin. apply NoDup_Permutation; [|done|].
  - apply NoDup_cons. split; [|by apply NoDup_filter].
    rewrite list_elem_of_filter. intros [Hne _]. by apply Hne.
  - intros q. rewrite elem_of_cons, list_elem_of_filter.
    destruct (decide (q = p)) as [->|]; [tauto|].
    split; [intros [?|[_ ?]]; done | by right].
Qed.

Lemma move_front_head (p : ptr) (l : list ptr) :
  NoDup l → head l = Some p → p :: filter (λ q, q ≠ p) l = l.
Proof.
  destruct l as [|q l]; [done|]. simpl. intros Hnd [= ->].
  apply NoDup_cons in Hnd as [Hp _].
  rewrite filter_cons_False by (intros Hne; by apply Hne).
  by rewrite filter_ne_notin.
Qed.

(** ** Running the routines *)

Lemma evict_ok h l m c n p it :
  last l = Some p →
  h !! p = Some (mkElement true (AnyItem it)) →
  evict (mkLRU h l m c n)
  = Ok tt (mkLRU
             (<[p := mkElement false (AnyItem (mkLRUItem None None (Count it)))]> h)
             (filter (λ q, q ≠ p) l) (delete (Key it) m) c n).
Proof.
  intros Hlast Hp.
  assert (p < length h)%nat as Hlt by (by eapply lookup_lt_Some).
  unfold evict, popBack, list_Remove, list_Back. unfold_access.
  rewrite Hlast. simpl. rewrite Hp. simpl. by read_cell.
Qed.

Lemma list_MoveToFront_linked h l m c n p v :
  NoDup l →
  h !! p = Some (mkElement true v) →
  list_MoveToFront p (mkLRU h l m c n)
  = Ok tt (mkLRU h (p :: filter (λ q, q ≠ p) l) m c n).
Proof.
  intros Hnd Hp. unfold list_MoveToFront, deref. unfold_monad.
  rewrite Hp. simpl. case_bool_decide as Hhd; simpl; [|done].
  by rewrite move_front_head.
Qed.

Lemma list_MoveToFront_unlinked h l m c n p v :
  h !! p = Some (mkElement false v) →
  list_MoveToFront p (mkLRU h l m c n) = Ok tt (mkLRU h l m c n).
Proof.
  intros Hp. unfold list_MoveToFront, deref. unfold_monad. by rewrite Hp.
Qed.

Lemma list_Remove_linked h l m c n p v :
  h !! p = Some (mkElement true v) →
  list_Remove (Some p) (mkLRU h l m c n)
  = Ok v (mkLRU (<[p := mkElement false v]> h) (filter (λ q, q ≠ p) l) m c n).
Proof.
  intros Hp. unfold list_Remove. unfold_access. by rewrite Hp.
Qed.

Lemma list_Remove_unlinked h l m c n p v :
  h !! p = Some (mkElement false v) →
  list_Remove (Some p) (mkLRU h l m c n) = Ok v (mkLRU h l m c n).
Proof.
  intros Hp. unfold list_Remove. unfold_access. by rewrite Hp.
Qed.

Lemma modify_item_ok h l m c n p b it f :
  h !! p = Some (mkElement b (AnyItem it)) →
  modify_item p f (mkLRU h l m c n)
  = Ok tt (mkLRU (<[p := mkElement b (AnyItem (f it))]> h) l m c n).
Proof. intros Hp. unfold_access. by rewrite Hp. Qed.

Lemma item_at_ok h l m c n p b it :
  h !! p = Some (mkElement b (AnyItem it)) →
  item_at p (mkLRU h l m c n) = Ok it (mkLRU h l m c n).
Proof. intros Hp. unfold_access. by rewrite Hp. Qed.

(** ** The invariant is kept by each elementary change of the state *)

Lemma wf_count h l m c n n' : wf (mkLRU h l m c n) → wf (mkLRU h l m c n').
Proof. intros [? ? ? ? ?]. by constructor. Qed.

Lemma wf_handle_lt s k p : wf s → lookup s !! k = Some p → (p < length (heap s))%nat.
Proof.
  intros Hwf Hk. destruct (wf_lookup s Hwf k p Hk) as (b & it & Hp & _).
  by eapply lookup_lt_Some.
Qed.

Lemma wf_item_lt s p : wf s → p ∈ items s → (p < length (heap s))%nat.
Proof.
  intros Hwf Hp. destruct (wf_items s Hwf p Hp) as (it & Hh & _).
  by eapply lookup_lt_Some.
Qed.

(** Reordering the Ordered Index. *)
Lemma wf_reorder h l l' m c n :
  l' ≡ₚ l → wf (mkLRU h l m c n) → wf (mkLRU h l' m c n).
Proof.
  intros Hperm [Hcap Hnd Hit Hlk Hlen]. simpl in *.
  constructor; simpl.
  - done.
  - by rewrite Hperm.
  - intros p Hp. apply Hit. by rewrite <-Hperm.
  - intros k p Hk. destruct (Hlk k p Hk) as (b & it & ? & ? & Hin).
    exists b, it. split_and!; [done..|]. intros ?. rewrite Hperm. by apply Hin.
  - unfold list_Len in *. simpl in *. by rewrite Hperm.
Qed.

(** Unlinking an element from the Ordered Index ([l.Remove]). *)
Lemma wf_unlink h l m c n p v :
  h !! p = Some (mkElement true v) →
  wf (mkLRU h l m c n) →
  wf (mkLRU (<[p := mkElement false v]> h) (filter (λ q, q ≠ p) l) m c n).
Proof.
  intros Hp [Hcap Hnd Hit Hlk Hlen]. simpl in *.
  constructor; simpl.
  - done.
  - by apply NoDup_filter.
  - intros q [Hne Hq]%list_elem_of_filter.
    rewrite list_lookup_insert_ne by done. by apply Hit.
  - intros k q Hk. destruct (Hlk k q Hk) as (b & it & Hq & Hkey & Hin).
    destruct (decide (q = p)) as [->|Hne].
    + rewrite Hp in Hq. injection Hq as <- ->.
      exists false, it. rewrite list_lookup_insert_eq by (by eapply lookup_lt_Some).
      done.
    + exists b, it. rewrite list_lookup_insert_ne by done.
      split_and!; [done..|]. intros Hb. apply list_elem_of_filter. auto.
  - unfold list_Len in *. simpl in *.
    pose proof (length_filter (λ q, q ≠ p) l). lia.
Qed.

(** Dropping from the Lookup Table a key whose element is not linked. *)
Lemma wf_delete h l m c n k :
  (∀ p, m !! k = Some p → p ∉ l) →
  wf (mkLRU h l m c n) → wf (mkLRU h l (delete k m) c n).
Proof.
  intros Hk [Hcap Hnd Hit Hlk Hlen]. simpl in *.
  constructor; simpl; [done..| | |done].
  - intros p Hp. destruct (Hit p Hp) as (it & Hh & Hm). exists it.
    split; [done|]. rewrite lookup_delete_ne; [done|].
    intros ->. by apply (Hk p).
  - intros k' p [Hne Hm]%lookup_delete_Some. by apply Hlk.
Qed.

(** Writing a cell that neither structure refers to. *)
Lemma wf_store_free h l m c n p e :
  p ∉ l → (∀ k, m !! k ≠ Some p) →
  wf (mkLRU h l m c n) → wf (mkLRU (<[p := e]> h) l m c n).
Proof.
  intros Hl Hm [Hcap Hnd Hit Hlk Hlen]. simpl in *.
  constructor; simpl; [done..| | |done].
  - intros q Hq. rewrite list_lookup_insert_ne by (by intros ->). by apply Hit.
  - intros k q Hk. rewrite list_lookup_insert_ne; [by apply Hlk|].
    intros ->. by apply (Hm k).
Qed.

(** Writing an item through its pointer, its key unchanged. *)
Lemma wf_store_item h l m c n p b it it' :
  h !! p = Some (mkElement b (AnyItem it)) →
  Key it' = Key it →
  wf (mkLRU h l m c n) →
  wf (mkLRU (<[p := mkElement b (AnyItem it')]> h) l m c n).
Proof.
  intros Hp Hkey [Hcap Hnd Hit Hlk Hlen]. simpl in *.
  assert (p < length h)%nat as Hlt by (by eapply lookup_lt_Some).
  constructor; simpl; [done..| | |done].
  - intros q Hq. destruct (Hit q Hq) as (itq & Hh & Hm).
    destruct (decide (q = p)) as [->|Hne].
    + rewrite Hp in Hh. injection Hh as -> ->.
      exists it'. rewrite list_lookup_insert_eq by done. by rewrite Hkey.
    + exists itq. by rewrite list_lookup_insert_ne.
  - intros k q Hk. destruct (Hlk k q Hk) as (bq & itq & Hh & Hkq & Hin).
    destruct (decide (q = p)) as [->|Hne].
    + rewrite Hp in Hh. injection Hh as <- <-.
      exists b, it'. rewrite list_lookup_insert_eq by done.
      split_and!; [done|congruence|done].
    + exists bq, itq. by rewrite list_lookup_insert_ne.
Qed.

(** A new element at the front, recorded under a key that was not there. *)
Lemma wf_push h l m c n k v cnt :
  m !! k = None →
  Z.of_nat (length l) ≤ c →
  wf (mkLRU h l m c n) →
  wf (mkLRU (h ++ [mkElement true (AnyItem (mkLRUItem k v cnt))])
        (length h :: l) (<[k := length h]> m) c n).
Proof.
  intros Hk Hfit Hwf. pose proof Hwf as [Hcap Hnd Hit Hlk Hlen]. simpl in *.
  assert (∀ q, q ∈ l → (q < length h)%nat) as Hlt
    by (intros q Hq; by apply (wf_item_lt _ q Hwf)).
  constructor; simpl.
  - done.
  - apply NoDup_cons. split; [|done]. intros Hin%Hlt. lia.
  - intros q [->|Hq]%elem_of_cons.
    + eexists. rewrite lookup_app_r, Nat.sub_diag by done. simpl.
      split; [done|]. by rewrite lookup_insert_eq.
    + destruct (Hit q Hq) as (it & Hh & Hm). exists it.
      rewrite lookup_app_l by auto. split; [done|].
      rewrite lookup_insert_ne; [done|]. intros ->. congruence.
  - intros k' q [[<- <-]|[Hne Hm]]%lookup_insert_Some.
    + do 2 eexists. rewrite lookup_app_r, Nat.sub_diag by done. simpl.
      split_and!; [done..|]. intros _. by left.
    + destruct (Hlk k' q Hm) as (b & it & Hh & Hkey & Hin).
      exists b, it. rewrite lookup_app_l by (by eapply lookup_lt_Some).
      split_and!; [done..|]. intros Hb. right. auto.
  - unfold list_Len in *. simpl in *. lia.
Qed.

Lemma wf_reset h l m c n : wf (mkLRU h l m c n) → wf (mkLRU h [] ∅ c 0).
Proof.
  intros [Hcap _ _ _ _]. simpl in *. constructor; simpl.
  - done.
  - constructor.
  - intros p Hp. by apply elem_of_nil in Hp.
  - intros k p Hk. by rewrite lookup_empty in Hk.
  - unfold list_Len. simpl. lia.
Qed.

(** ** Stale handles *)

Lemma tidy_items h h' l l' m c c' n n' :
  (∀ p, p ∈ l → p ∈ l') →
  tidy (mkLRU h l m c n) → tidy (mkLRU h' l' m c' n').
Proof. intros Hsub Ht k p Hk. apply Hsub. by apply (Ht k). Qed.

Lemma tidy_push h h' l m c c' n n' k p :
  tidy (mkLRU h l m c n) → tidy (mkLRU h' (p :: l) (<[k := p]> m) c' n').
Proof.
  intros Ht k2 p2 Hk. simpl in *.
  apply lookup_insert_Some in Hk as [[<- <-]|[Hne Hk]].
  - by left.
  - right. by apply (Ht k2).
Qed.

Lemma tidy_evict h h' l m c n q itq :
  wf (mkLRU h l m c n) →
  h !! q = Some (mkElement true (AnyItem itq)) →
  tidy (mkLRU h l m c n) →
  tidy (mkLRU h' (filter (λ x, x ≠ q) l) (delete (Key itq) m) c n).
Proof.
  intros Hwf Hq Ht k p Hk. simpl in *.
  apply lookup_delete_Some in Hk as [Hne Hk].
  apply list_elem_of_filter. split; [|by apply (Ht k)].
  intros ->. destruct (wf_lookup _ Hwf k q Hk) as (b & it & Hq' & Hkey & _).
  simpl in *. rewrite Hq in Hq'. injection Hq' as <- <-. done.
Qed.

Lemma tidy_size s :
  wf s → tidy s → size (lookup s) = length (items s).
Proof.
  intros Hwf Ht. rewrite <-length_map_to_list.
  rewrite <-(length_fmap snd (map_to_list (lookup s))).
  apply Permutation_length, NoDup_Permutation.
  - apply NoDup_fmap_2_strong; [|apply NoDup_map_to_list].
    intros [k1 p1] [k2 p2] Hk1%elem_of_map_to_list Hk2%elem_of_map_to_list.
    simpl. intros <-.
    destruct (wf_lookup _ Hwf k1 p1 Hk1) as (b1 & it1 & Hp1 & Hkey1 & _).
    destruct (wf_lookup _ Hwf k2 p1 Hk2) as (b2 & it2 & Hp2 & Hkey2 & _).
    rewrite Hp1 in Hp2. injection Hp2 as <- <-. congruence.
  - apply (wf_nodup _ Hwf).
  - intros p. rewrite list_elem_of_fmap. split.
    + intros ([k p'] & -> & Hk%elem_of_map_to_list). by apply (Ht k).
    + intros Hp. destruct (wf_items _ Hwf p Hp) as (it & _ & Hm).
      exists (Key it, p). split; [done|]. by apply elem_of_map_to_list.
Qed.

(** ** [evict] and [set] *)

Lemma wf_evict h l m c n p it :
  last l = Some p →
  h !! p = Some (mkElement true (AnyItem it)) →
  wf (mkLRU h l m c n) →
  wf (mkLRU
        (<[p := mkElement false (AnyItem (mkLRUItem None None (Count it)))]> h)
        (filter (λ q, q ≠ p) l) (delete (Key it) m) c n).
Proof.
  intros Hlast Hp Hwf.
  assert (p ∈ l) as Hin by (by apply last_Some_elem_of).
  destruct (wf_items _ Hwf p Hin) as (it0 & Hp0 & Hm). simpl in *.
  rewrite Hp in Hp0. injection Hp0 as <-.
  assert (p ∉ filter (λ q, q ≠ p) l) as Hout.
  { rewrite list_elem_of_filter. intros [Hne _]. by apply Hne. }
  rewrite <-(list_insert_insert_eq h p _ (mkElement false (AnyItem it))).
  apply wf_store_free; [done| |].
  - intros k [Hne Hk]%lookup_delete_Some.
    destruct (wf_lookup _ Hwf k p Hk) as (b & it' & Hp' & Hkey & _).
    simpl in *. rewrite Hp in Hp'. injection Hp' as <- <-. done.
  - apply wf_delete; [|by apply wf_unlink].
    intros q Hq. rewrite Hm in Hq. by injection Hq as <-.
Qed.

(** When the count exceeds the capacity, the Ordered Index has a tail. *)
Lemma wf_tail s :
  wf s → list_Len s > capacity s →
  ∃ p it, last (items s) = Some p
          ∧ heap s !! p = Some (mkElement true (AnyItem it))
          ∧ lookup s !! Key it = Some p.
Proof.
  intros Hwf Hfull. pose proof (wf_capacity _ Hwf) as Hcap.
  destruct (last (items s)) as [p|] eqn:Hlast.
  - destruct (wf_items _ Hwf p) as (it & Hp & Hm);
      [by apply last_Some_elem_of|]. by exists p, it.
  - apply last_None in Hlast. unfold list_Len in Hfull.
    rewrite Hlast in Hfull. simpl in Hfull. lia.
Qed.

(** [set] of a key that the Lookup Table does not have, count within the
    capacity: the new entry goes to the front. *)
Lemma set_new_fits h l m c n k v :
  m !! k = None →
  ¬ Z.of_nat (length l) > c →
  set k v (mkLRU h l m c n)
  = Ok (true, None)
      (mkLRU (h ++ [mkElement true (AnyItem (mkLRUItem k v (int_add n 1)))])
         (length h :: l) (<[k := length h]> m) c (int_add n 1)).
Proof.
  intros Hk Hfit. unfold set, list_PushFront, list_Len. unfold_monad.
  rewrite Hk. simpl. by rewrite bool_decide_eq_false_2.
Qed.

(** [set] of a key that the Lookup Table does not have, count above the
    capacity: the tail is evicted, then the new entry goes to the front. *)
Lemma set_new_full h l m c n k v p it :
  m !! k = None →
  Z.of_nat (length l) > c →
  last l = Some p →
  h !! p = Some (mkElement true (AnyItem it)) →
  set k v (mkLRU h l m c n)
  = Ok (true, None)
      (mkLRU
         (<[p := mkElement false (AnyItem (mkLRUItem None None (Count it)))]> h
          ++ [mkElement true (AnyItem (mkLRUItem k v (int_add n 1)))])
         (length h :: filter (λ q, q ≠ p) l)
         (<[k := length h]> (delete (Key it) m)) c (int_add n 1)).
Proof.
  intros Hk Hfull Hlast Hp. unfold set, list_PushFront, list_Len. unfold_monad.
  rewrite Hk. simpl. rewrite bool_decide_eq_true_2 by done.
  rewrite (evict_ok _ _ _ _ _ p it) by done. simpl.
  by rewrite length_insert.
Qed.

(** The touch of an existing entry at the end of [set] and [get]. *)
Lemma wf_touch h l m c n p b it it' :
  h !! p = Some (mkElement b (AnyItem it)) →
  (b = true → p ∈ l) →
  Key it' = Key it →
  wf (mkLRU h l m c n) →
  wf (mkLRU (<[p := mkElement b (AnyItem it')]> h)
        (if b then p :: filter (λ q, q ≠ p) l else l) m c n).
Proof.
  intros Hp Hin Hkey Hwf.
  apply (wf_reorder _ l).
  - destruct b; [|done]. apply move_front_perm; [|by apply Hin].
    apply (wf_nodup _ Hwf).
  - by eapply wf_store_item.
Qed.

Lemma touch_ok h l m c n p b it f1 f2 {A} (r : A) :
  NoDup l →
  h !! p = Some (mkElement b (AnyItem it)) →
  (modify_item p f1 ;; modify_item p f2 ;; list_MoveToFront p ;; ret r)
    (mkLRU h l m c n)
  = Ok r (mkLRU (<[p := mkElement b (AnyItem (f2 (f1 it)))]> h)
            (if b then p :: filter (λ q, q ≠ p) l else l) m c n).
Proof.
  intros Hnd Hp.
  assert (p < length h)%nat as Hlt by (by eapply lookup_lt_Some).
  unfold bind at 1. rewrite (modify_item_ok _ _ _ _ _ _ b it) by done.
  unfold bind at 1.
  rewrite (modify_item_ok _ _ _ _ _ _ b (f1 it))
    by (by rewrite list_lookup_insert_eq).
  rewrite list_insert_insert_eq. unfold bind, ret.
  destruct b.
  - by erewrite list_MoveToFront_linked
      by (done || by rewrite list_lookup_insert_eq).
  - by erewrite list_MoveToFront_unlinked
      by (by rewrite list_lookup_insert_eq).
Qed.

Lemma bind_ok {A B} (m : M A) (f : A → M B) s a s' :
  m s = Ok a s' → bind m f s = f a s'.
Proof. intros Hm. unfold bind. by rewrite Hm. Qed.

Lemma run_cons_ok o os s s1 :
  call o s = Ok tt s1 → run (o :: os) s = run os s1.
Proof. intros Hcall. simpl. by rewrite (bind_ok _ _ _ _ _ Hcall). Qed.

Lemma call_Set_ok k v s r s1 :
  set k v s = Ok r s1 → call (OpSet k v) s = Ok tt s1.
Proof. intros Hset. simpl. unfold Set_. by rewrite (bind_ok _ _ _ _ _ Hset). Qed.

(** [set] of a key that the Lookup Table has: what is left to run once the
    handle has been resolved. *)
Lemma set_update_unfold h l m c n k v p b it :
  m !! k = Some p →
  h !! p = Some (mkElement b (AnyItem it)) →
  set k v (mkLRU h l m c n)
  = (when (bool_decide (Z.of_nat (length l) > c)) evict ;;
     modify_item p (λ it, mkLRUItem (Key it) (Value it) (int_add (Count it) 1)) ;;
     modify_item p (λ it, mkLRUItem (Key it) v (Count it)) ;;
     list_MoveToFront p ;;
     ret (false, None)) (mkLRU h l m c (int_add n 1)).
Proof.
  intros Hk Hp. unfold set, deref, list_Len. unfold_monad.
  rewrite Hk. simpl. rewrite Hp. done.
Qed.

(** [set] never fails on a state that satisfies the invariant, and keeps
    the invariant. *)
Lemma set_wf s k v :
  wf s →
  ∃ isNew s', set k v s = Ok (isNew, None) s' ∧ wf s'
    ∧ capacity s' = capacity s ∧ count s' = int_add (count s) 1
    ∧ (isNew = true ↔ lookup s !! k = None)
    ∧ (tidy s → tidy s').
Proof.
  intros Hwf. destruct s as [h l m c n].
  apply (wf_count _ _ _ _ _ (int_add n 1)) in Hwf.
  pose proof (wf_len _ Hwf) as Hlen. unfold list_Len in Hlen. simpl in *.
  destruct (m !! k) as [p|] eqn:Hk.
  - destruct (wf_lookup _ Hwf k p Hk) as (b & it & Hp & Hkey & Hin).
    simpl in *. exists false. rewrite (set_update_unfold _ _ _ _ _ _ _ p b it) by done.
    destruct (decide (Z.of_nat (length l) > c)) as [Hfull|Hfit].
    + destruct (wf_tail _ Hwf Hfull) as (q & itq & Hlast & Hq & Hmq).
      simpl in *. rewrite bool_decide_eq_true_2 by done. unfold when.
      rewrite (bind_ok _ _ _ _ _ (evict_ok _ _ _ _ _ q itq Hlast Hq)).
      pose proof (wf_evict _ _ _ _ _ q itq Hlast Hq Hwf) as Hwf'.
      assert (q < length h)%nat as Hlt by (by eapply lookup_lt_Some).
      destruct (decide (p = q)) as [->|Hne].
      * eexists. erewrite (touch_ok _ _ _ _ _ q false)
          by (by apply (wf_nodup _ Hwf') || by rewrite list_lookup_insert_eq).
        split_and!; [done| |done..|].
        -- eapply (wf_touch _ _ _ _ _ q false); [|done| |exact Hwf'].
           ++ by rewrite list_lookup_insert_eq.
           ++ done.
        -- intros Ht. by eapply tidy_evict.
      * eexists. rewrite (touch_ok _ _ _ _ _ p b it)
          by (by apply (wf_nodup _ Hwf') || by rewrite list_lookup_insert_ne).
        split_and!; [done| |done..|].
        -- eapply (wf_touch _ _ _ _ _ p b it); [| | |exact Hwf'].
           ++ by rewrite list_lookup_insert_ne.
           ++ intros Hb. apply list_elem_of_filter. auto.
           ++ done.
        -- intros Ht. eapply tidy_items; [|by eapply (tidy_evict _ h)].
           intros x Hx. destruct b; [|done]. rewrite elem_of_cons.
           destruct (decide (x = p)); [by left|right].
           by apply list_elem_of_filter.
    + rewrite bool_decide_eq_false_2 by done. unfold when.
      rewrite (bind_ok _ _ _ tt _ eq_refl).
      eexists. rewrite (touch_ok _ _ _ _ _ p b it)
        by (done || by apply (wf_nodup _ Hwf)).
      split_and!; [done| |done..|].
      * by eapply (wf_touch _ _ _ _ _ p b it).
      * intros Ht. eapply tidy_items; [|exact Ht].
        intros x Hx. destruct b; [|done]. rewrite elem_of_cons.
        destruct (decide (x = p)); [by left|right].
        by apply list_elem_of_filter.
  - exists true. destruct (decide (Z.of_nat (length l) > c)) as [Hfull|Hfit].
    + destruct (wf_tail _ Hwf Hfull) as (q & itq & Hlast & Hq & Hmq).
      simpl in *. eexists. rewrite (set_new_full _ _ _ _ _ _ _ q itq) by done.
      split_and!; [done| |done..|].
      * rewrite <-(length_insert h q
          (mkElement false (AnyItem (mkLRUItem None None (Count itq))))).
        apply wf_push.
        -- by apply lookup_delete_None; right.
        -- assert (length (filter (λ x, x ≠ q) l) < length l)%nat; [|lia].
           apply (length_filter_lt _ _ q); [by apply last_Some_elem_of|].
           intros Hne. by apply Hne.
        -- by apply wf_evict.
      * intros Ht. eapply tidy_push. by eapply (tidy_evict _ h).
    + eexists. rewrite set_new_fits by done.
      split_and!; [done| |done..|].
      * apply wf_push; [done|lia|done].
      * intros Ht. by eapply tidy_push.
Qed.

(** ** [Get], [Read], [Remove], [Purge], [Len] *)

Lemma Get_miss h l m c n k :
  m !! k = None →
  Get k (mkLRU h l m c n) = Ok (None, None) (mkLRU h l m c (int_add n 1)).
Proof. intros Hk. unfold Get, get. unfold_monad. by rewrite Hk. Qed.

Lemma Get_hit h l m c n k p b it :
  NoDup l →
  m !! k = Some p →
  h !! p = Some (mkElement b (AnyItem it)) →
  Get k (mkLRU h l m c n)
  = Ok (Value it, None)
      (mkLRU
         (<[p := mkElement b
                   (AnyItem (mkLRUItem (Key it) (Value it) (int_add (Count it) 1)))]> h)
         (if b then p :: filter (λ q, q ≠ p) l else l) m c (int_add n 1)).
Proof.
  intros Hnd Hk Hp.
  assert (p < length h)%nat as Hlt by (by eapply lookup_lt_Some).
  unfold Get, get, list_MoveToFront. unfold_access.
  rewrite Hk. simpl. rewrite Hp. simpl. rewrite Hp. simpl. read_cell.
  destruct b; simpl; [|by read_cell].
  case_bool_decide as Hhd; simpl; read_cell; [|done].
  by rewrite move_front_head.
Qed.

Lemma Read_miss s k : lookup s !! k = None → Read k s = Ok None s.
Proof. intros Hk. unfold Read, read. unfold_monad. by rewrite Hk. Qed.

Lemma Read_hit s k p b it :
  lookup s !! k = Some p →
  heap s !! p = Some (mkElement b (AnyItem it)) →
  Read k s = Ok (Value it) s.
Proof.
  intros Hk Hp. unfold Read, read. unfold_access.
  rewrite Hk. simpl. rewrite Hp. simpl. by rewrite Hp.
Qed.

Lemma Remove_miss s k : lookup s !! k = None → Remove k s = Ok false s.
Proof.
  intros Hk. unfold Remove, remove, readEntery. unfold_monad. by rewrite Hk.
Qed.

Lemma Remove_linked h l m c n k p v :
  m !! k = Some p →
  h !! p = Some (mkElement true v) →
  Remove k (mkLRU h l m c n)
  = Ok true (mkLRU (<[p := mkElement false v]> h) (filter (λ q, q ≠ p) l) m c n).
Proof.
  intros Hk Hp. unfold Remove, remove, readEntery, list_Remove.
  unfold_access. rewrite Hk. simpl. by rewrite Hp.
Qed.

Lemma Remove_unlinked h l m c n k p v :
  m !! k = Some p →
  h !! p = Some (mkElement false v) →
  Remove k (mkLRU h l m c n) = Ok true (mkLRU h l m c n).
Proof.
  intros Hk Hp. unfold Remove, remove, readEntery, list_Remove.
  unfold_access. rewrite Hk. simpl. by rewrite Hp.
Qed.

Lemma Purge_ok h l m c n :
  Purge (mkLRU h l m c n) = Ok tt (mkLRU h [] ∅ c 0).
Proof. done. Qed.

Lemma Len_ok s : Len s = Ok (list_Len s) s.
Proof. done. Qed.

Lemma Get_wf s k :
  wf s →
  ∃ value s', Get k s = Ok (value, None) s' ∧ wf s'
    ∧ capacity s' = capacity s ∧ count s' = int_add (count s) 1
    ∧ (tidy s → tidy s').
Proof.
  intros Hwf. destruct s as [h l m c n].
  apply (wf_count _ _ _ _ _ (int_add n 1)) in Hwf.
  destruct (m !! k) as [p|] eqn:Hk.
  - destruct (wf_lookup _ Hwf k p Hk) as (b & it & Hp & Hkey & Hin).
    simpl in *. do 2 eexists.
    rewrite (Get_hit _ _ _ _ _ _ p b it) by (done || apply (wf_nodup _ Hwf)).
    split_and!; [done| |done..|].
    + by eapply (wf_touch _ _ _ _ _ p b it).
    + intros Ht. eapply tidy_items; [|exact Ht].
      intros x Hx. destruct b; [|done]. rewrite elem_of_cons.
      destruct (decide (x = p)); [by left|right].
      by apply list_elem_of_filter.
  - do 2 eexists. rewrite Get_miss by done. split_and!; [done..|].
    intros Ht. by eapply tidy_items.
Qed.

Lemma Read_wf s k : wf s → ∃ value, Read k s = Ok value s.
Proof.
  intros Hwf. destruct (lookup s !! k) as [p|] eqn:Hk.
  - destruct (wf_lookup _ Hwf k p Hk) as (b & it & Hp & _).
    eexists. by eapply Read_hit.
  - eexists. by apply Read_miss.
Qed.

Lemma Remove_wf s k :
  wf s →
  ∃ ok s', Remove k s = Ok ok s' ∧ wf s'
    ∧ capacity s' = capacity s ∧ count s' = count s.
Proof.
  intros Hwf. destruct (lookup s !! k) as [p|] eqn:Hk.
  - destruct (wf_lookup _ Hwf k p Hk) as (b & it & Hp & _).
    destruct s as [h l m c n]. simpl in *. destruct b.
    + do 2 eexists. rewrite (Remove_linked _ _ _ _ _ _ p (AnyItem it)) by done.
      split_and!; [done| |done..]. by apply wf_unlink.
    + do 2 eexists. by rewrite (Remove_unlinked _ _ _ _ _ _ p (AnyItem it)).
  - do 2 eexists. by rewrite Remove_miss.
Qed.

(** ** Every sequence of public operations runs, and keeps the invariant *)

Lemma call_wf o s :
  wf s → ∃ s', call o s = Ok tt s' ∧ wf s' ∧ capacity s' = capacity s.
Proof.
  intros Hwf. destruct o as [k v|k|k|k| |]; simpl.
  - destruct (set_wf s k v Hwf) as (r & s' & Hrun & ? & ? & _).
    exists s'. by rewrite (bind_ok _ _ _ _ _ Hrun).
  - destruct (Get_wf s k Hwf) as (r & s' & Hrun & ? & ? & _).
    exists s'. by rewrite (bind_ok _ _ _ _ _ Hrun).
  - destruct (Read_wf s k Hwf) as (r & Hrun).
    exists s. by rewrite (bind_ok _ _ _ _ _ Hrun).
  - destruct (Remove_wf s k Hwf) as (r & s' & Hrun & ? & ? & _).
    exists s'. by rewrite (bind_ok _ _ _ _ _ Hrun).
  - destruct s as [h l m c n]. eexists. rewrite Purge_ok.
    split_and!; [done| |done]. by eapply wf_reset.
  - exists s. done.
Qed.

Lemma run_wf os s :
  wf s → ∃ s', run os s = Ok tt s' ∧ wf s' ∧ capacity s' = capacity s.
Proof.
  revert s. induction os as [|o os IH]; intros s Hwf; simpl.
  - by exists s.
  - destruct (call_wf o s Hwf) as (s1 & Hcall & Hwf1 & Hcap1).
    destruct (IH s1 Hwf1) as (s2 & Hrun & Hwf2 & Hcap2).
    exists s2. rewrite (bind_ok _ _ _ _ _ Hcall). split_and!; [done..|congruence].
Qed.

Lemma int_wrap_range z : int_min ≤ int_wrap z ≤ int_max.
Proof.
  unfold int_wrap, int_min, int_max.
  pose proof (Z.mod_pos_bound (z + 2 ^ 63) (2 ^ 64)). lia.
Qed.

Lemma int_wrap_id z : int_min ≤ z ≤ int_max → int_wrap z = z.
Proof.
  unfold int_wrap, int_min, int_max. intros Hz.
  rewrite Z.mod_small by lia. lia.
Qed.

(** Within the range, [++] is the successor. *)
Lemma int_add_1 n : int_min ≤ n < int_max → int_add n 1 = n + 1.
Proof. intros Hn. unfold int_add. apply int_wrap_id. lia. Qed.

Lemma NewLRU_capacity_pos c : 1 ≤ capacity (NewLRU c).
Proof.
  unfold NewLRU. simpl. case_bool_decide; simpl; [done|lia].
Qed.

(** What [NewLRU] makes. *)
Lemma NewLRU_empty c :
  heap (NewLRU c) = [] ∧ items (NewLRU c) = [] ∧ lookup (NewLRU c) = ∅
  ∧ count (NewLRU c) = 0.
Proof. unfold NewLRU. simpl. by case_bool_decide. Qed.

Lemma NewLRU_capacity c :
  capacity (NewLRU c)
  = if bool_decide (int_sub c 1 ≤ 0) then defaultCAPACITY else int_sub c 1.
Proof. unfold NewLRU. simpl. by case_bool_decide. Qed.

Lemma NewLRU_default c :
  int_min < c ≤ 1 → capacity (NewLRU c) = defaultCAPACITY.
Proof.
  intros Hc. rewrite NewLRU_capacity. unfold int_sub.
  rewrite int_wrap_id by (unfold int_min, int_max in *; lia).
  by rewrite bool_decide_eq_true_2 by lia.
Qed.

Lemma NewLRU_wf c : wf (NewLRU c).
Proof.
  pose proof (NewLRU_capacity_pos c) as Hcap.
  unfold NewLRU in *. simpl in *.
  case_bool_decide; simpl in *;
    (constructor; simpl;
     [ done
     | constructor
     | intros p Hp; by apply elem_of_nil in Hp
     | intros k p Hk; by rewrite lookup_empty in Hk
     | unfold list_Len; simpl; lia ]).
Qed.

Lemma reachable_wf c os s :
  run os (NewLRU c) = Ok tt s → wf s ∧ capacity s = capacity (NewLRU c).
Proof.
  intros Hrun. destruct (run_wf os _ (NewLRU_wf c)) as (s' & Hrun' & Hwf & Hcap).
  rewrite Hrun in Hrun'. by injection Hrun' as ->.
Qed.

(** ** Without [Remove], the two structures stay in bijection *)

Lemma call_tidy o s :
  (∀ k, o ≠ OpRemove k) → wf s → tidy s →
  ∃ s', call o s = Ok tt s' ∧ wf s' ∧ tidy s'.
Proof.
  intros Ho Hwf Ht. destruct o as [k v|k|k|k| |]; simpl.
  - destruct (set_wf s k v Hwf) as (r & s' & Hrun & ? & _ & _ & _ & Ht').
    exists s'. rewrite (bind_ok _ _ _ _ _ Hrun). auto.
  - destruct (Get_wf s k Hwf) as (r & s' & Hrun & ? & _ & _ & Ht').
    exists s'. rewrite (bind_ok _ _ _ _ _ Hrun). auto.
  - destruct (Read_wf s k Hwf) as (r & Hrun).
    exists s. by rewrite (bind_ok _ _ _ _ _ Hrun).
  - by destruct (Ho k).
  - destruct s as [h l m c n]. eexists. rewrite Purge_ok.
    split_and!; [done|by eapply wf_reset|].
    intros k p Hk. simpl in Hk. by rewrite lookup_empty in Hk.
  - by exists s.
Qed.

(** X21.  In a state reached without any [Remove], no handle of the Lookup
    Table is outside the Ordered Index, and the two have the same size. *)
Lemma bijection_without_Remove c os s :
  (∀ k, OpRemove k ∉ os) →
  run os (NewLRU c) = Ok tt s →
  tidy s ∧ size (lookup s) = length (items s).
Proof.
  intros Hno Hrun.
  assert (wf (NewLRU c) ∧ tidy (NewLRU c)) as Hstart.
  { split; [apply NewLRU_wf|]. intros k p Hk.
    destruct (NewLRU_empty c) as (_ & _ & Hm & _). rewrite Hm in Hk.
    by rewrite lookup_empty in Hk. }
  revert Hstart Hrun. generalize (NewLRU c).
  induction os as [|o os IH]; intros s0 [Hwf Ht] Hrun.
  - simpl in Hrun. injection Hrun as <-. split; [done|by apply tidy_size].
  - destruct (call_tidy o s0) as (s1 & Hcall & Hwf1 & Ht1); [|done..|].
    { intros k ->. apply (Hno k). by left. }
    rewrite (run_cons_ok _ _ _ _ Hcall) in Hrun.
    apply (IH (λ k Hk, Hno k (proj2 (elem_of_cons _ _ _) (or_intror Hk))) s1); auto.
Qed.

(** ** [Set] of a cached key: where the update and the promotion hold *)

(** When the key is cached, and the eviction that [set] runs first (if the
    count exceeds the capacity) does not take the key's own element, the
    entry is updated and moved to the front. *)
Lemma set_update_promotes s k v p it :
  wf s →
  cached_at s k p it →
  (list_Len s > capacity s → list_Back s ≠ Some p) →
  ∃ s', set k v s = Ok (false, None) s'
    ∧ cached_at s' k p (mkLRUItem (Key it) v (int_add (Count it) 1))
    ∧ head (items s') = Some p.
Proof.
  intros Hwf (Hk & Hin & Hp & Hkey) Htail. destruct s as [h l m c n].
  unfold list_Len, list_Back in Htail. simpl in *.
  assert (p < length h)%nat as Hlt by (by eapply lookup_lt_Some).
  rewrite (set_update_unfold _ _ _ _ _ _ _ p true it) by done.
  destruct (decide (Z.of_nat (length l) > c)) as [Hfull|Hfit].
  - destruct (wf_tail _ Hwf Hfull) as (q & itq & Hlast & Hq & Hmq).
    simpl in *. assert (q ≠ p) as Hne by (intros ->; by apply Htail).
    rewrite bool_decide_eq_true_2 by done. unfold when.
    rewrite (bind_ok _ _ _ _ _ (evict_ok _ _ _ _ _ q itq Hlast Hq)).
    eexists. rewrite (touch_ok _ _ _ _ _ p true it).
    + split_and!; [done| |done]. unfold cached_at. simpl.
      split_and!; [|by left| |done].
      * rewrite lookup_delete_ne; [done|]. intros <-. congruence.
      * by rewrite list_lookup_insert_eq by (by rewrite length_insert).
    + apply NoDup_filter, (wf_nodup _ Hwf).
    + by rewrite list_lookup_insert_ne.
  - rewrite bool_decide_eq_false_2 by done. unfold when.
    rewrite (bind_ok _ _ _ tt _ eq_refl).
    eexists. rewrite (touch_ok _ _ _ _ _ p true it)
      by (done || by apply (wf_nodup _ Hwf)).
    split_and!; [done| |done]. unfold cached_at. simpl.
    split_and!; [done|by left| |done].
    by rewrite list_lookup_insert_eq.
Qed.

(** ** Filling an engine with new keys *)

Lemma cached_at_Read s k p it : cached_at s k p it → Read k s = Ok (Value it) s.
Proof. intros (Hk & _ & Hp & _). by eapply Read_hit. Qed.

Lemma sets_fill kvs : ∀ s,
  wf s →
  NoDup (kvs.*1) →
  (∀ k, k ∈ kvs.*1 → lookup s !! k = None) →
  list_Len s + Z.of_nat (length kvs) ≤ capacity s + 1 →
  ∃ s', run (sets kvs) s = Ok tt s' ∧ wf s'
    ∧ capacity s' = capacity s
    ∧ list_Len s' = list_Len s + Z.of_nat (length kvs)
    ∧ (∃ front, items s' = front ++ items s)
    ∧ (∀ k, lookup s' !! k = None ↔ lookup s !! k = None ∧ k ∉ kvs.*1)
    ∧ (∀ k p it, cached_at s k p it → cached_at s' k p it)
    ∧ (∀ k v, (k, v) ∈ kvs → ∃ p it, cached_at s' k p it ∧ Value it = v).
Proof.
  induction kvs as [|[k v] kvs IH]; intros s Hwf Hnd Hnew Hroom.
  - exists s. simpl. split_and!; try done.
    + lia.
    + by exists [].
    + intros k. split; [|tauto]. intros ?. split; [done|]. apply not_elem_of_nil.
    + intros k v Hin. by apply elem_of_nil in Hin.
  - simpl in Hnd. apply NoDup_cons in Hnd as [Hk Hnd].
    assert (lookup s !! k = None) as Hnone by (apply Hnew; simpl; by left).
    destruct s as [h l m c n]. unfold list_Len in Hroom. simpl in *.
    assert (¬ Z.of_nat (length l) > c) as Hfit by lia.
    pose proof (set_new_fits h l m c n k v Hnone Hfit) as Hset.
    set (s1 := mkLRU (h ++ [mkElement true (AnyItem (mkLRUItem k v (int_add n 1)))])
                 (length h :: l) (<[k := length h]> m) c (int_add n 1)) in *.
    assert (wf s1) as Hwf1.
    { apply wf_push; [done|lia|]. by eapply wf_count. }
    destruct (IH s1 Hwf1 Hnd) as (s' & Hrun & Hwf' & Hcap & Hlen & [front Hfront]
                                  & Hlk & Hkeep & Hall).
    { intros k2 Hk2. simpl. rewrite lookup_insert_ne; [|by intros ->].
      apply Hnew. by right. }
    { unfold list_Len. simpl. lia. }
    assert (cached_at s1 k (length h) (mkLRUItem k v (int_add n 1))) as Hhead.
    { unfold cached_at. simpl. rewrite lookup_insert_eq.
      rewrite lookup_app_r, Nat.sub_diag by done. split_and!; try done. by left. }
    exists s'. split_and!.
    + rewrite <-Hrun.
      apply (run_cons_ok (OpSet k v) (sets kvs)). by eapply call_Set_ok.
    + done.
    + done.
    + unfold list_Len in *. simpl in *. lia.
    + exists (front ++ [length h]). rewrite Hfront. simpl. by rewrite <-app_assoc.
    + intros k2. rewrite Hlk. simpl. rewrite lookup_insert_None, not_elem_of_cons.
      split; [intros [[? ?] ?]|intros [? [? ?]]]; split_and!; done.
    + intros k2 p it (Hk2 & Hin & Hp & Hkey). apply Hkeep.
      unfold cached_at. simpl in *. split_and!; [|by right| |done].
      * rewrite lookup_insert_ne; [done|]. intros ->. congruence.
      * apply lookup_app_l_Some. done.
    + intros k2 v2 [[= -> ->]|Hin]%elem_of_cons.
      * do 2 eexists. split; [by apply Hkeep|done].
      * by apply Hall.
Qed.

Lemma NewLRU_ge2 c :
  2 ≤ c ≤ int_max → NewLRU c = mkLRU [] [] ∅ (c - 1) 0.
Proof.
  intros Hc. unfold NewLRU, int_sub. simpl.
  rewrite int_wrap_id by (unfold int_min, int_max in *; lia).
  by rewrite bool_decide_eq_false_2 by lia.
Qed.

(** ** The properties of the specification *)

(** C1 (amended).  For an engine made by [NewLRU(N)] with [N >= 2] (a
    request of 1 or less is replaced by the default budget), setting [N]
    distinct keys gives [Len() == N] with every key readable; setting one
    more new key evicts the key at the back of the Ordered Index, which is
    the first key set, keeps every other key readable, and leaves
    [Len() == N]. *)
Theorem fill_then_evict kvs k' v' :
  NoDup (kvs.*1) →
  k' ∉ kvs.*1 →
  (2 ≤ length kvs)%nat →
  Z.of_nat (length kvs) ≤ int_max →
  fills_then_evicts_oldest (length kvs) kvs k' v'.
Proof.
  intros Hnd Hfresh Hlen Hmax.
  destruct kvs as [|[k0 v0] rest]; [simpl in Hlen; lia|].
  simpl in Hnd, Hfresh, Hlen. apply NoDup_cons in Hnd as [Hk0 Hnd].
  apply not_elem_of_cons in Hfresh as [Hne0 Hfresh].
  unfold fills_then_evicts_oldest.
  rewrite NewLRU_ge2 by (simpl length in *; lia).
  set (N := length ((k0, v0) :: rest)) in *.
  assert (Z.of_nat N = Z.of_nat (length rest) + 1) as HN by (subst N; simpl; lia).
  set (it0 := mkLRUItem k0 v0 (int_add 0 1)).
  set (s1 := mkLRU ([] ++ [mkElement true (AnyItem it0)]) [0%nat]
               (<[k0 := 0%nat]> ∅) (Z.of_nat N - 1) (int_add 0 1)).
  assert (set k0 v0 (mkLRU [] [] ∅ (Z.of_nat N - 1) 0) = Ok (true, None) s1)
    as Hset0 by (apply set_new_fits; [done|simpl; lia]).
  assert (wf s1) as Hwf1.
  { apply (wf_push [] [] ∅); [done|simpl; lia|].
    apply (wf_count _ _ _ _ 0). rewrite <-NewLRU_ge2 by lia. apply NewLRU_wf. }
  assert (cached_at s1 k0 0%nat it0) as Hc0.
  { unfold cached_at. simpl. rewrite lookup_insert_eq.
    split_and!; try done. by left. }
  destruct (sets_fill rest s1 Hwf1 Hnd)
    as (s & Hrun & Hwf & Hcap & Hlens & [front Hfront] & Hlk & Hkeep & Hall).
  { intros k Hk. simpl. rewrite lookup_insert_ne; [done|]. by intros ->. }
  { unfold list_Len. simpl. lia. }
  destruct (Hkeep _ _ _ Hc0) as (Hm0 & Hin0 & Hh0 & Hkey0).
  assert (lookup s !! k' = None) as Hnew.
  { apply Hlk. split; [|done]. simpl. by rewrite lookup_insert_ne. }
  clear Hkeep Hlk.
  destruct s as [h l m c n]. unfold list_Len in Hlens. simpl in *. subst c l.
  assert (NoDup (front ++ [0%nat])) as Hndl by apply (wf_nodup _ Hwf).
  rewrite length_app in Hlens. simpl in Hlens.
  exists (mkLRU h (front ++ [0%nat]) m (Z.of_nat N - 1) n). split_and!.
  - rewrite <-Hrun. apply (run_cons_ok (OpSet k0 v0) (sets rest)).
    by eapply call_Set_ok.
  - rewrite Len_ok. unfold list_Len. simpl. rewrite length_app. simpl.
    f_equal. lia.
  - intros k v [[= -> ->]|Hin]%elem_of_cons.
    + by apply (Read_hit _ _ 0%nat true it0).
    + destruct (Hall k v Hin) as (p & it & Hc & <-). by apply cached_at_Read in Hc.
  - eexists. unfold Set_.
    rewrite (set_new_full _ _ _ _ _ _ _ 0%nat it0)
      by (done || (rewrite length_app; simpl; lia) || apply last_snoc).
    rewrite filter_ne_snoc by done.
    split_and!; [done| | |].
    + rewrite Len_ok. unfold list_Len. simpl. f_equal. lia.
    + apply (Read_hit _ _ (length h) true (mkLRUItem k' v' (int_add n 1))); simpl.
      * apply lookup_insert_eq.
      * rewrite lookup_app_r by (by rewrite length_insert).
        by rewrite length_insert, Nat.sub_diag.
    + exists 0%nat, it0. split_and!.
      * unfold list_Back. simpl. apply last_snoc.
      * unfold item_of. simpl. by rewrite Hh0.
      * done.
      * simpl. rewrite lookup_insert_ne by done. apply lookup_delete_eq.
      * apply Read_miss. simpl. rewrite lookup_insert_ne by done.
        apply lookup_delete_eq.
      * intros k v [[= -> ->]|Hin]%elem_of_cons Hne; [done|].
        destruct (Hall k v Hin) as (p & it & (Hmk & Hpin & Hp & Hkey) & <-).
        simpl in *.
        assert (p ≠ 0%nat) as Hp0.
        { intros ->. rewrite Hh0 in Hp. injection Hp as <-. done. }
        apply (Read_hit _ _ p true it); simpl.
        -- rewrite lookup_insert_ne, lookup_delete_ne; [done|done|].
           intros <-. apply Hfresh. apply (list_elem_of_fmap_2 fst _ _ Hin).
        -- apply lookup_app_l_Some. by rewrite list_lookup_insert_ne.
Qed.

Lemma run_total c os : ∃ s, run os (NewLRU c) = Ok tt s.
Proof.
  destruct (run_wf os _ (NewLRU_wf c)) as (s & Hrun & _). by exists s.
Qed.

Lemma Reads_noop ks : ∀ s, wf s → run (OpRead <$> ks) s = Ok tt s.
Proof.
  induction ks as [|k ks IH]; intros s Hwf; [done|].
  rewrite fmap_cons. erewrite run_cons_ok; [by apply IH|].
  destruct (Read_wf s k Hwf) as (value & Hread).
  simpl. by rewrite (bind_ok _ _ _ _ _ Hread).
Qed.

(** C5.  In a state reached through the public operations, [Read(k)]
    returns the value of the entry that the Lookup Table has for [k], and
    nil when it has none; the state after the call is the state before it
    (counters, recency order, tables), and so it is after any number of
    [Read] calls: the element at the back of the Ordered Index, which is
    the one evicted next, is the same. *)
Theorem Read_pure c os s :
  run os (NewLRU c) = Ok tt s →
  ∀ k, ∃ value,
    Read k s = Ok value s
    ∧ (lookup s !! k = None → value = None)
    ∧ (∀ p, lookup s !! k = Some p →
         ∃ it, item_of s p = Some it ∧ value = Value it)
    ∧ ∀ ks, run (OpRead <$> ks) s = Ok tt s.
Proof.
  intros Hrun k. destruct (reachable_wf _ _ _ Hrun) as [Hwf _].
  destruct (lookup s !! k) as [p|] eqn:Hk.
  - destruct (wf_lookup _ Hwf k p Hk) as (b & it & Hp & _).
    exists (Value it). split_and!.
    + by eapply Read_hit.
    + done.
    + intros ? [= <-]. exists it. unfold item_of. by rewrite Hp.
    + intros ks. by apply Reads_noop.
  - exists None. split_and!.
    + by apply Read_miss.
    + done.
    + done.
    + intros ks. by apply Reads_noop.
Qed.


(** C8.  In every state, [Purge()] returns with the Ordered Index and the
    Lookup Table empty ([Len() == 0], no key reads back), the touch counter
    at 0 and the capacity as it was; the engine can be used at once: with a
    capacity that is not negative, a [Set] then inserts its key, which
    reads back. *)
Theorem Purge_clears s :
  ∃ s', Purge s = Ok tt s'
    ∧ items s' = [] ∧ lookup s' = ∅
    ∧ Len s' = Ok 0 s'
    ∧ (∀ k, Read k s' = Ok None s')
    ∧ count s' = 0
    ∧ capacity s' = capacity s
    ∧ (0 ≤ capacity s →
       ∀ k v, ∃ s'', Set_ k v s' = Ok (true, None) s''
                ∧ Len s'' = Ok 1 s'' ∧ Read k s'' = Ok v s'').
Proof.
  destruct s as [h l m c n]. eexists. rewrite Purge_ok. simpl.
  split_and!; [done..| | | |].
  - intros k. by apply Read_miss.
  - done.
  - done.
  - intros Hcap k v. eexists. unfold Set_.
    rewrite set_new_fits by (done || simpl; lia).
    split_and!; [done..|].
    apply (Read_hit _ _ (length h) true (mkLRUItem k v (int_add 0 1))); simpl.
    + apply lookup_insert_eq.
    + by rewrite lookup_app_r, Nat.sub_diag.
Qed.

(** C9.  Every sequence of public operations on a new engine runs to its
    end, and in the state it reaches every handle of the Lookup Table
    resolves to an [*LRUItem]; there [Set] returns a nil error, never
    [ELRUINVALTYPE], and [Get], whose type assertion on the handle would
    panic, returns. *)
Theorem invalid_item_type_unreachable c os :
  ∃ s, run os (NewLRU c) = Ok tt s
    ∧ (∀ k p, lookup s !! k = Some p → ∃ it, item_of s p = Some it)
    ∧ (∀ k v, ∃ isNew s', Set_ k v s = Ok (isNew, None) s')
    ∧ (∀ k, ∃ value s', Get k s = Ok (value, None) s').
Proof.
  destruct (run_wf os _ (NewLRU_wf c)) as (s & Hrun & Hwf & _).
  exists s. split_and!; [done| | |].
  - intros k p Hk. destruct (wf_lookup _ Hwf k p Hk) as (b & it & Hp & _).
    exists it. unfold item_of. by rewrite Hp.
  - intros k v. destruct (set_wf s k v Hwf) as (isNew & s' & Hset & _).
    by exists isNew, s'.
  - intros k. destruct (Get_wf s k Hwf) as (value & s' & Hget & _).
    by exists value, s'.
Qed.

(** C10.  In a state reached through the public operations from
    [NewLRU(c)], [Len()] is at most the capacity field plus one, and at most
    [c] when [c >= 2]. *)
Theorem Len_bounded c os s :
  run os (NewLRU c) = Ok tt s →
  ∃ n, Len s = Ok n s
    ∧ n ≤ capacity s + 1
    ∧ (2 ≤ c ≤ int_max → n ≤ c).
Proof.
  intros Hrun. destruct (reachable_wf _ _ _ Hrun) as [Hwf Hcap].
  exists (list_Len s). pose proof (wf_len _ Hwf) as Hlen.
  split_and!; [done..|].
  intros Hc. rewrite Hcap, NewLRU_ge2 in Hlen by done. simpl in Hlen. lia.
Qed.


(** C7, at the least [int]: the requested capacity is not positive, its
    decrement wraps around to the greatest [int], which passes the test of
    [NewLRU], and the capacity is not the default. *)
Theorem NewLRU_least_int :
  int_min ≤ 0
  ∧ capacity (NewLRU int_min) = int_max
  ∧ capacity (NewLRU int_min) ≠ defaultCAPACITY.
Proof. split_and!; [done|by vm_compute..]. Qed.

(** ** Further properties of the code

    *** The branches of [set] *)

Lemma filter_ne_length (q : ptr) (l : list ptr) :
  NoDup l → q ∈ l → S (length (filter (λ x, x ≠ q) l)) = length l.
Proof.
  intros Hnd Hq. by rewrite <-(Permutation_length (move_front_perm q l Hnd Hq)).
Qed.

Lemma set_outcome_total s k v :
  wf s → ∃ isNew s', set k v s = Ok (isNew, None) s' ∧ set_outcome s k v isNew s'.
Proof.
  intros Hwf. destruct s as [h l m c n].
  pose proof (wf_nodup _ Hwf) as Hnd. simpl in Hnd.
  destruct (m !! k) as [p|] eqn:Hk.
  - destruct (wf_lookup _ Hwf k p Hk) as (b & it & Hp & Hkey & Hin).
    simpl in *. exists false.
    rewrite (set_update_unfold _ _ _ _ _ _ _ p b it) by done.
    destruct (decide (Z.of_nat (length l) > c)) as [Hfull|Hfit].
    + destruct (wf_tail _ Hwf Hfull) as (q & itq & Hlast & Hq & Hmq).
      simpl in *. rewrite bool_decide_eq_true_2 by done. unfold when.
      rewrite (bind_ok _ _ _ _ _ (evict_ok _ _ _ _ _ q itq Hlast Hq)).
      assert (q < length h)%nat as Hlt by (by eapply lookup_lt_Some).
      assert (NoDup (filter (λ x, x ≠ q) l)) as Hnd' by (by apply NoDup_filter).
      destruct (decide (q = p)) as [->|Hne].
      * rewrite Hp in Hq. injection Hq as -> <-.
        eexists. erewrite (touch_ok _ _ _ _ _ p false)
          by (done || by rewrite list_lookup_insert_eq).
        split; [done|]. rewrite list_insert_insert_eq. simpl.
        by apply set_update_evict_self.
      * eexists. rewrite (touch_ok _ _ _ _ _ p b it)
          by (done || by rewrite list_lookup_insert_ne).
        split; [done|]. simpl. by apply set_update_evict_other.
    + rewrite bool_decide_eq_false_2 by done. unfold when.
      rewrite (bind_ok _ _ _ tt _ eq_refl).
      eexists. rewrite (touch_ok _ _ _ _ _ p b it) by done.
      split; [done|]. simpl. by apply set_update.
  - exists true. destruct (decide (Z.of_nat (length l) > c)) as [Hfull|Hfit].
    + destruct (wf_tail _ Hwf Hfull) as (q & itq & Hlast & Hq & Hmq).
      simpl in *. eexists. rewrite (set_new_full _ _ _ _ _ _ _ q itq) by done.
      split; [done|]. by apply set_insert_evict.
    + eexists. rewrite set_new_fits by done.
      split; [done|]. by apply set_insert.
Qed.

(** The tail of the Ordered Index has its key in the Lookup Table. *)
Lemma wf_last h l m c n q itq :
  wf (mkLRU h l m c n) →
  last l = Some q →
  h !! q = Some (mkElement true (AnyItem itq)) →
  q ∈ l ∧ m !! Key itq = Some q.
Proof.
  intros Hwf Hlast Hq.
  assert (q ∈ l) as Hin by (by apply last_Some_elem_of).
  split; [done|].
  destruct (wf_items _ Hwf q Hin) as (it & Hq' & Hm). simpl in *.
  rewrite Hq in Hq'. by injection Hq' as <-.
Qed.

Lemma set_outcome_run c os s k v :
  run os (NewLRU c) = Ok tt s →
  wf s ∧ ∃ isNew s', Set_ k v s = Ok (isNew, None) s'
                     ∧ set_outcome s k v isNew s' ∧ wf s'.
Proof.
  intros Hrun. destruct (reachable_wf _ _ _ Hrun) as [Hwf _].
  split; [done|].
  destruct (set_outcome_total s k v Hwf) as (isNew & s' & Hset & Hout).
  destruct (set_wf s k v Hwf) as (isNew' & s'' & Hset' & Hwf' & _).
  rewrite Hset in Hset'. injection Hset' as <- <-.
  by exists isNew, s'.
Qed.

(** X1.  In a reachable state, [Set] of a key that the Lookup Table does
    not have returns [isNew = true] and a nil error; the new entry is at
    the front of the Ordered Index, holds the key, the value and the value
    of the touch counter after its increment, and reads back. *)
Theorem Set_new_key c os s k v :
  run os (NewLRU c) = Ok tt s →
  lookup s !! k = None →
  ∃ s' p, Set_ k v s = Ok (true, None) s'
    ∧ count s' = int_add (count s) 1
    ∧ head (items s') = Some p
    ∧ cached_at s' k p (mkLRUItem k v (count s'))
    ∧ Read k s' = Ok v s'.
Proof.
  intros Hrun Hk.
  destruct (set_outcome_run c os s k v Hrun)
    as (Hwf & isNew & s' & Hset & Hout & Hwf').
  destruct Hout as [h l m c0 n k v Hm Hfit|h l m c0 n k v q itq Hm Hfull Hlast Hq
                   |h l m c0 n k v p b it Hm|h l m c0 n k v p b it q itq Hm
                   |h l m c0 n k v p it Hm]; simpl in Hk; try congruence.
  - exists (mkLRU (h ++ [mkElement true (AnyItem (mkLRUItem k v (int_add n 1)))])
              (length h :: l) (<[k := length h]> m) c0 (int_add n 1)), (length h).
    assert (cached_at
              (mkLRU (h ++ [mkElement true (AnyItem (mkLRUItem k v (int_add n 1)))])
                 (length h :: l) (<[k := length h]> m) c0 (int_add n 1))
              k (length h) (mkLRUItem k v (int_add n 1))) as Hc.
    { unfold cached_at. simpl. rewrite lookup_insert_eq.
      rewrite lookup_app_r, Nat.sub_diag by done. split_and!; try done. by left. }
    split_and!; [done..|]. by apply cached_at_Read in Hc.
  - set (h' := <[q := mkElement false (AnyItem (mkLRUItem None None (Count itq)))]> h).
    exists (mkLRU (h' ++ [mkElement true (AnyItem (mkLRUItem k v (int_add n 1)))])
              (length h :: filter (λ x, x ≠ q) l)
              (<[k := length h]> (delete (Key itq) m)) c0 (int_add n 1)), (length h).
    assert (cached_at
              (mkLRU (h' ++ [mkElement true (AnyItem (mkLRUItem k v (int_add n 1)))])
                 (length h :: filter (λ x, x ≠ q) l)
                 (<[k := length h]> (delete (Key itq) m)) c0 (int_add n 1))
              k (length h) (mkLRUItem k v (int_add n 1))) as Hc.
    { unfold cached_at. simpl. rewrite lookup_insert_eq.
      rewrite lookup_app_r by (subst h'; by rewrite length_insert).
      subst h'. rewrite length_insert, Nat.sub_diag.
      split_and!; try done. by left. }
    split_and!; [done..|]. by apply cached_at_Read in Hc.
Qed.

(** X2.  In a reachable state every [Set] returns a nil error, with
    [isNew = true] exactly when the Lookup Table did not have the key; the
    length grows by one for a new key and shrinks by one whenever the count
    before the call exceeded the capacity field, on an update as well as on
    an insertion. *)
Theorem Set_length c os s k v :
  run os (NewLRU c) = Ok tt s →
  ∃ isNew s', Set_ k v s = Ok (isNew, None) s'
    ∧ (isNew = true ↔ lookup s !! k = None)
    ∧ list_Len s'
      = list_Len s + (if isNew then 1 else 0)
        - (if bool_decide (list_Len s > capacity s) then 1 else 0).
Proof.
  intros Hrun.
  destruct (set_outcome_run c os s k v Hrun)
    as (Hwf & isNew & s' & Hset & Hout & Hwf').
  exists isNew, s'. split; [done|].
  pose proof (wf_nodup _ Hwf) as Hnd.
  destruct Hout as [h l m c0 n k v Hm Hfit|h l m c0 n k v q itq Hm Hfull Hlast Hq
                   |h l m c0 n k v p b it Hm Hp Hfit
                   |h l m c0 n k v p b it q itq Hm Hp Hfull Hlast Hq Hne
                   |h l m c0 n k v p it Hm Hp Hfull Hlast];
    unfold list_Len; simpl in *.
  - rewrite bool_decide_eq_false_2 by done. split; [done|lia].
  - rewrite bool_decide_eq_true_2 by done. split; [done|].
    destruct (wf_last _ _ _ _ _ _ _ Hwf Hlast Hq) as [Hin _].
    pose proof (filter_ne_length q l Hnd Hin). lia.
  - rewrite bool_decide_eq_false_2 by done.
    split; [split; congruence|].
    destruct (wf_lookup _ Hwf k p Hm) as (b' & it' & Hp' & _ & Hin).
    simpl in *. rewrite Hp in Hp'. injection Hp' as <- <-.
    destruct b; [|lia]. simpl.
    pose proof (filter_ne_length p l Hnd (Hin eq_refl)). lia.
  - rewrite bool_decide_eq_true_2 by done.
    split; [split; congruence|].
    destruct (wf_last _ _ _ _ _ _ _ Hwf Hlast Hq) as [Hqin _].
    pose proof (filter_ne_length q l Hnd Hqin) as Hlq.
    destruct (wf_lookup _ Hwf k p Hm) as (b' & it' & Hp' & _ & Hin).
    simpl in *. rewrite Hp in Hp'. injection Hp' as <- <-.
    destruct b; [|lia]. simpl.
    assert (p ∈ filter (λ x, x ≠ q) l) as Hpin
      by (apply list_elem_of_filter; split; [done|by apply Hin]).
    pose proof (filter_ne_length p _ (NoDup_filter _ _ Hnd) Hpin). lia.
  - rewrite bool_decide_eq_true_2 by done.
    split; [split; congruence|].
    destruct (wf_last _ _ _ _ _ _ _ Hwf Hlast Hp) as [Hin _].
    pose proof (filter_ne_length p l Hnd Hin). lia.
Qed.

(** X3.  In a reachable state, unless the key's own element is at the back
    of the Ordered Index while the count exceeds the capacity, the value
    given to [Set] is the one that [Read] and [Get] return next. *)
Theorem Set_round_trip c os s k v :
  run os (NewLRU c) = Ok tt s →
  (∀ p, lookup s !! k = Some p → list_Back s = Some p →
        list_Len s ≤ capacity s) →
  ∃ isNew s', Set_ k v s = Ok (isNew, None) s'
    ∧ Read k s' = Ok v s'
    ∧ ∃ s'', Get k s' = Ok (v, None) s''.
Proof.
  intros Hrun Hself.
  destruct (set_outcome_run c os s k v Hrun)
    as (Hwf & isNew & s' & Hset & Hout & Hwf').
  exists isNew, s'. split; [done|].
  assert (∃ p b it, lookup s' !! k = Some p
                    ∧ heap s' !! p = Some (mkElement b (AnyItem it))
                    ∧ Value it = v) as (p' & b' & it' & Hk' & Hp' & <-).
  { destruct Hout as [h l m c0 n k v Hm Hfit|h l m c0 n k v q itq Hm Hfull Hlast Hq
                     |h l m c0 n k v p b it Hm Hp Hfit
                     |h l m c0 n k v p b it q itq Hm Hp Hfull Hlast Hq Hne
                     |h l m c0 n k v p it Hm Hp Hfull Hlast];
      unfold list_Len, list_Back in Hself; simpl in *.
    - exists (length h), true, (mkLRUItem k v (int_add n 1)).
      rewrite lookup_insert_eq, lookup_app_r, Nat.sub_diag by done. done.
    - exists (length h), true, (mkLRUItem k v (int_add n 1)).
      rewrite lookup_insert_eq, lookup_app_r by (by rewrite length_insert).
      by rewrite length_insert, Nat.sub_diag.
    - exists p, b, (mkLRUItem (Key it) v (int_add (Count it) 1)).
      rewrite list_lookup_insert_eq by (by eapply lookup_lt_Some). done.
    - exists p, b, (mkLRUItem (Key it) v (int_add (Count it) 1)).
      destruct (wf_last _ _ _ _ _ _ _ Hwf Hlast Hq) as [_ Hmq].
      rewrite lookup_delete_ne by (intros <-; congruence).
      rewrite list_lookup_insert_eq
        by (rewrite length_insert; by eapply lookup_lt_Some).
      done.
    - specialize (Hself p Hm Hlast). lia. }
  split; [by eapply Read_hit|].
  destruct s' as [h' l' m' c' n']. simpl in *. eexists.
  by rewrite (Get_hit _ _ _ _ _ _ p' b' it') by (done || apply (wf_nodup _ Hwf')).
Qed.

(** X4.  In a reachable state, when the key's own element is at the back of
    the Ordered Index and the count exceeds the capacity, [Set] on that key
    returns [isNew = false] and a nil error, and the key has left both
    structures: the length is one less and [Read] returns nil. *)
Theorem Set_evicts_own_key c os s k v p :
  run os (NewLRU c) = Ok tt s →
  lookup s !! k = Some p →
  list_Back s = Some p →
  list_Len s > capacity s →
  ∃ s', Set_ k v s = Ok (false, None) s'
    ∧ lookup s' !! k = None
    ∧ (p ∉ items s')
    ∧ list_Len s' = list_Len s - 1
    ∧ Read k s' = Ok None s'.
Proof.
  intros Hrun Hk Hback Hover.
  destruct (set_outcome_run c os s k v Hrun)
    as (Hwf & isNew & s' & Hset & Hout & Hwf').
  pose proof (wf_nodup _ Hwf) as Hnd.
  destruct Hout as [h l m c0 n k v Hm Hfit|h l m c0 n k v q itq Hm Hfull Hlast Hq
                   |h l m c0 n k v p0 b it Hm Hp Hfit
                   |h l m c0 n k v p0 b it q itq Hm Hp Hfull Hlast Hq Hne
                   |h l m c0 n k v p0 it Hm Hp Hfull Hlast];
    unfold list_Len, list_Back in *; simpl in *; try congruence; try lia.
  assert (p0 = p) as -> by congruence.
  destruct (wf_lookup _ Hwf k p Hm) as (b' & it' & Hp' & Hkey & _).
  simpl in *. rewrite Hp in Hp'. injection Hp' as <- <-.
  destruct (wf_last _ _ _ _ _ _ _ Hwf Hlast Hp) as [Hin _].
  eexists. split; [done|]. simpl. rewrite Hkey.
  split_and!.
  - apply lookup_delete_eq.
  - rewrite list_elem_of_filter. intros [Hne _]. by apply Hne.
  - pose proof (filter_ne_length p l Hnd Hin). lia.
  - apply Read_miss. simpl. apply lookup_delete_eq.
Qed.

(** X5.  In a reachable state whose count exceeds the capacity, [Set] of a
    new key evicts exactly the element at the back of the Ordered Index:
    its key leaves the Lookup Table, the other elements keep their order
    behind the new one, every other key keeps its handle, and the length is
    unchanged. *)
Theorem eviction_takes_the_oldest c os s k v :
  run os (NewLRU c) = Ok tt s →
  lookup s !! k = None →
  list_Len s > capacity s →
  ∃ s' q itq front,
    Set_ k v s = Ok (true, None) s'
    ∧ list_Back s = Some q ∧ item_of s q = Some itq
    ∧ items s = front ++ [q]
    ∧ items s' = length (heap s) :: front
    ∧ lookup s' !! Key itq = None
    ∧ (∀ k2, k2 ≠ k → k2 ≠ Key itq → lookup s' !! k2 = lookup s !! k2)
    ∧ list_Len s' = list_Len s.
Proof.
  intros Hrun Hk Hover.
  destruct (set_outcome_run c os s k v Hrun)
    as (Hwf & isNew & s' & Hset & Hout & Hwf').
  pose proof (wf_nodup _ Hwf) as Hnd.
  destruct Hout as [h l m c0 n k v Hm Hfit|h l m c0 n k v q itq Hm Hfull Hlast Hq
                   |h l m c0 n k v p0 b it Hm Hp Hfit
                   |h l m c0 n k v p0 b it q itq Hm Hp Hfull Hlast Hq Hne
                   |h l m c0 n k v p0 it Hm Hp Hfull Hlast];
    unfold list_Len, list_Back in *; simpl in *; try congruence; try lia.
  destruct (wf_last _ _ _ _ _ _ _ Hwf Hlast Hq) as [Hin Hmq].
  apply last_Some in Hlast as [front ->].
  rewrite filter_ne_snoc in Hset by done.
  eexists _, q, itq, front. split; [done|]. simpl.
  split_and!.
  - apply last_snoc.
  - unfold item_of. simpl. by rewrite Hq.
  - done.
  - done.
  - rewrite lookup_insert_ne by congruence. apply lookup_delete_eq.
  - intros k2 Hk2 Hkq. by rewrite lookup_insert_ne, lookup_delete_ne.
  - rewrite length_app. simpl. lia.
Qed.

(** X6.  In a reachable state, [Set] on a cached key whose element is not
    the one evicted first (the count is within the capacity, or another
    element is at the back) returns [isNew = false] and a nil error; the
    entry keeps its key, takes the new value, has its access counter
    incremented, and its element is at the front of the Ordered Index. *)
Theorem Set_existing_promotes c os s k v p it :
  run os (NewLRU c) = Ok tt s →
  cached_at s k p it →
  (list_Len s > capacity s → list_Back s ≠ Some p) →
  ∃ s', Set_ k v s = Ok (false, None) s'
    ∧ cached_at s' k p (mkLRUItem (Key it) v (int_add (Count it) 1))
    ∧ head (items s') = Some p.
Proof.
  intros Hrun Hc Hback. destruct (reachable_wf _ _ _ Hrun) as [Hwf _].
  by apply set_update_promotes.
Qed.

(** A handle that is not linked in the Ordered Index stays so through
    [set]. *)
Lemma set_keeps_stale s k v isNew s' k2 p2 :
  wf s →
  set_outcome s k v isNew s' →
  lookup s !! k2 = Some p2 → p2 ∉ items s →
  lookup s' !! k2 = Some p2 ∧ p2 ∉ items s'.
Proof.
  intros Hwf Hout Hk2 Hp2.
  pose proof (wf_handle_lt _ _ _ Hwf Hk2) as Hlt.
  destruct Hout as [h l m c0 n k v Hm Hfit|h l m c0 n k v q itq Hm Hfull Hlast Hq
                   |h l m c0 n k v p b it Hm Hp Hfit
                   |h l m c0 n k v p b it q itq Hm Hp Hfull Hlast Hq Hne
                   |h l m c0 n k v p it Hm Hp Hfull Hlast];
    simpl in *.
  - split.
    + rewrite lookup_insert_ne; [done|]. intros ->. congruence.
    + rewrite not_elem_of_cons. split; [lia|done].
  - destruct (wf_last _ _ _ _ _ _ _ Hwf Hlast Hq) as [Hin Hmq]. split.
    + rewrite lookup_insert_ne, lookup_delete_ne; [done| |].
      * intros <-. rewrite Hmq in Hk2. by injection Hk2 as <-.
      * intros ->. congruence.
    + rewrite not_elem_of_cons. split; [lia|].
      rewrite list_elem_of_filter. tauto.
  - split; [done|].
    destruct (wf_lookup _ Hwf k p Hm) as (b' & it' & Hp' & _ & Hin).
    simpl in *. rewrite Hp in Hp'. injection Hp' as <- <-.
    destruct b; [|done]. rewrite not_elem_of_cons, list_elem_of_filter.
    split; [|tauto]. intros ->. by apply Hp2, Hin.
  - destruct (wf_last _ _ _ _ _ _ _ Hwf Hlast Hq) as [Hqin Hmq]. split.
    + rewrite lookup_delete_ne; [done|].
      intros <-. rewrite Hmq in Hk2. by injection Hk2 as <-.
    + destruct (wf_lookup _ Hwf k p Hm) as (b' & it' & Hp' & _ & Hin).
      simpl in *. rewrite Hp in Hp'. injection Hp' as <- <-.
      destruct b.
      * rewrite not_elem_of_cons, !list_elem_of_filter.
        split; [|tauto]. intros ->. by apply Hp2, Hin.
      * rewrite list_elem_of_filter. tauto.
  - destruct (wf_last _ _ _ _ _ _ _ Hwf Hlast Hp) as [Hin Hmp]. split.
    + rewrite lookup_delete_ne; [done|].
      intros <-. rewrite Hmp in Hk2. by injection Hk2 as <-.
    + rewrite list_elem_of_filter. tauto.
Qed.

(** ** [Get] and [Remove] on reachable states *)

Lemma wf_linked_iff s k p b it :
  wf s →
  lookup s !! k = Some p →
  heap s !! p = Some (mkElement b (AnyItem it)) →
  b = true ↔ p ∈ items s.
Proof.
  intros Hwf Hk Hp. split.
  - intros Hb. destruct (wf_lookup _ Hwf k p Hk) as (b' & it' & Hp' & _ & Hin).
    rewrite Hp in Hp'. injection Hp' as <- <-. by apply Hin.
  - intros Hin. destruct (wf_items _ Hwf p Hin) as (it' & Hp' & _).
    rewrite Hp in Hp'. by injection Hp' as -> _.
Qed.

(** X7.  In a reachable state [Get] changes neither the Lookup Table nor
    the capacity, and the Ordered Index holds the same elements after it:
    [Get] inserts nothing and evicts nothing, hit or miss. *)
Theorem Get_keeps_entries c os s k :
  run os (NewLRU c) = Ok tt s →
  ∃ value s', Get k s = Ok (value, None) s'
    ∧ lookup s' = lookup s
    ∧ items s' ≡ₚ items s
    ∧ list_Len s' = list_Len s
    ∧ capacity s' = capacity s.
Proof.
  intros Hrun. destruct (reachable_wf _ _ _ Hrun) as [Hwf _].
  pose proof (wf_nodup _ Hwf) as Hnd.
  destruct s as [h l m c0 n]. simpl in *.
  destruct (m !! k) as [p|] eqn:Hk.
  - destruct (wf_lookup _ Hwf k p Hk) as (b & it & Hp & _ & Hin). simpl in *.
    do 2 eexists. rewrite (Get_hit _ _ _ _ _ _ p b it) by done. simpl.
    assert ((if b then p :: filter (λ q, q ≠ p) l else l) ≡ₚ l) as Hperm.
    { destruct b; [|done]. apply move_front_perm; [done|by apply Hin]. }
    split_and!; [done..| |done].
    unfold list_Len. simpl. by rewrite Hperm.
  - do 2 eexists. by rewrite Get_miss by done.
Qed.

(** X8.  In a reachable state [Remove] returns true exactly when the Lookup
    Table has the key, and it never changes the Lookup Table, the touch
    counter or the capacity.  When the key's element is linked in the
    Ordered Index it is unlinked and the length is one less; when it is
    not, the state is unchanged. *)
Theorem Remove_effect c os s k :
  run os (NewLRU c) = Ok tt s →
  ∃ ok s', Remove k s = Ok ok s'
    ∧ (ok = true ↔ is_Some (lookup s !! k))
    ∧ lookup s' = lookup s ∧ count s' = count s ∧ capacity s' = capacity s
    ∧ (∀ p, lookup s !! k = Some p → p ∈ items s →
         items s' = filter (λ q, q ≠ p) (items s)
         ∧ list_Len s' = list_Len s - 1)
    ∧ ((∀ p, lookup s !! k = Some p → p ∉ items s) → s' = s).
Proof.
  intros Hrun. destruct (reachable_wf _ _ _ Hrun) as [Hwf _].
  pose proof (wf_nodup _ Hwf) as Hnd.
  destruct (lookup s !! k) as [p|] eqn:Hk.
  - destruct (wf_lookup _ Hwf k p Hk) as (b & it & Hp & _).
    pose proof (wf_linked_iff s k p b it Hwf Hk Hp) as Hb.
    destruct s as [h l m c0 n]. simpl in *. destruct b.
    + do 2 eexists.
      rewrite (Remove_linked _ _ _ _ _ _ p (AnyItem it)) by done. simpl.
      split_and!; [done| |done..| |].
      * split; [by eexists|done].
      * intros ? [= <-] Hin. split; [done|]. unfold list_Len. simpl.
        pose proof (filter_ne_length p l Hnd Hin). lia.
      * intros Hout. destruct (Hout p eq_refl). by apply Hb.
    + do 2 eexists.
      rewrite (Remove_unlinked _ _ _ _ _ _ p (AnyItem it)) by done. simpl.
      split_and!; [done| |done..| |done].
      * split; [by eexists|done].
      * intros ? [= <-] Hin. apply Hb in Hin. done.
  - exists false, s. rewrite Remove_miss by done.
    split_and!; [done| |done..].
    split; [done|]. by intros [? ?].
Qed.

(** ** A key left in the Lookup Table by [Remove] *)

Lemma call_keeps_stale o s s' k p :
  wf s →
  o ≠ OpPurge →
  call o s = Ok tt s' →
  lookup s !! k = Some p → p ∉ items s →
  lookup s' !! k = Some p ∧ p ∉ items s'.
Proof.
  intros Hwf Ho Hcall Hk Hp. destruct o as [k0 v0|k0|k0|k0| |]; simpl in Hcall.
  - destruct (set_outcome_total s k0 v0 Hwf) as (isNew & s1 & Hset & Hout).
    unfold Set_ in Hcall. rewrite (bind_ok _ _ _ _ _ Hset) in Hcall.
    injection Hcall as <-. by eapply set_keeps_stale.
  - destruct s as [h l m c0 n]. simpl in *.
    destruct (m !! k0) as [p0|] eqn:Hk0.
    + destruct (wf_lookup _ Hwf k0 p0 Hk0) as (b & it & Hp0 & _ & Hin).
      simpl in *.
      rewrite (bind_ok _ _ _ _ _ (Get_hit _ _ _ _ _ _ p0 b it
                                   (wf_nodup _ Hwf) Hk0 Hp0)) in Hcall.
      injection Hcall as <-. simpl. split; [done|].
      destruct b; [|done]. rewrite not_elem_of_cons, list_elem_of_filter.
      split; [|tauto]. intros ->. by apply Hp, Hin.
    + rewrite (bind_ok _ _ _ _ _ (Get_miss _ _ _ _ _ _ Hk0)) in Hcall.
      by injection Hcall as <-.
  - destruct (Read_wf s k0 Hwf) as (r & Hread).
    rewrite (bind_ok _ _ _ _ _ Hread) in Hcall. by injection Hcall as <-.
  - destruct (lookup s !! k0) as [p0|] eqn:Hk0.
    + destruct (wf_lookup _ Hwf k0 p0 Hk0) as (b & it & Hp0 & _).
      destruct s as [h l m c0 n]. simpl in *. destruct b.
      * rewrite (bind_ok _ _ _ _ _ (Remove_linked _ _ _ _ _ _ p0 (AnyItem it)
                                     Hk0 Hp0)) in Hcall.
        injection Hcall as <-. simpl. split; [done|].
        rewrite list_elem_of_filter. tauto.
      * rewrite (bind_ok _ _ _ _ _ (Remove_unlinked _ _ _ _ _ _ p0 (AnyItem it)
                                     Hk0 Hp0)) in Hcall.
        by injection Hcall as <-.
    + rewrite (bind_ok _ _ _ _ _ (Remove_miss _ _ Hk0)) in Hcall.
      by injection Hcall as <-.
  - done.
  - by injection Hcall as <-.
Qed.

Lemma run_keeps_stale os : ∀ s s' k p,
  wf s →
  OpPurge ∉ os →
  run os s = Ok tt s' →
  lookup s !! k = Some p → p ∉ items s →
  wf s' ∧ lookup s' !! k = Some p ∧ p ∉ items s'.
Proof.
  induction os as [|o os IH]; intros s s' k p Hwf Hno Hrun Hk Hp.
  - simpl in Hrun. by injection Hrun as <-.
  - apply not_elem_of_cons in Hno as [Ho Hno].
    destruct (call_wf o s Hwf) as (s1 & Hcall & Hwf1 & _).
    rewrite (run_cons_ok _ _ _ _ Hcall) in Hrun.
    destruct (call_keeps_stale o s s1 k p Hwf) as [Hk1 Hp1]; [congruence|done..|].
    by apply (IH s1).
Qed.

(** X9.  Once a key's element has been unlinked while the key is still in
    the Lookup Table (the state [Remove] leaves), no operation other than
    [Purge] links it again or drops the key: after any such operations the
    key still has the same handle outside the Ordered Index, and a [Set] on
    it returns [isNew = false] and leaves it there. *)
Theorem removed_key_stays_out c os s k p os' s' :
  run os (NewLRU c) = Ok tt s →
  lookup s !! k = Some p → p ∉ items s →
  OpPurge ∉ os' →
  run os' s = Ok tt s' →
  lookup s' !! k = Some p ∧ (p ∉ items s')
  ∧ ∀ v, ∃ s'', Set_ k v s' = Ok (false, None) s''
           ∧ lookup s'' !! k = Some p ∧ (p ∉ items s'').
Proof.
  intros Hrun Hk Hp Hno Hrun'. destruct (reachable_wf _ _ _ Hrun) as [Hwf _].
  destruct (run_keeps_stale os' s s' k p Hwf Hno Hrun' Hk Hp)
    as (Hwf' & Hk' & Hp').
  split_and!; [done..|]. intros v.
  destruct (set_outcome_total s' k v Hwf') as (isNew & s'' & Hset & Hout).
  destruct (set_keeps_stale _ _ _ _ _ k p Hwf' Hout Hk' Hp') as [Hk'' Hp''].
  destruct (set_wf s' k v Hwf') as (isNew' & s3 & Hset' & _ & _ & _ & Hnew & _).
  rewrite Hset in Hset'. injection Hset' as <- <-.
  exists s''. split_and!; [|done..]. unfold Set_. rewrite Hset.
  destruct isNew; [|done]. destruct Hnew as [Hnew _].
  rewrite Hnew in Hk' by done. done.
Qed.

(** ** The Ordered Index inside the Lookup Table *)

(** X10.  In a reachable state the Ordered Index has no element twice, every
    element of it boxes an item whose key the Lookup Table maps back to that
    element, and so it is never longer than the Lookup Table has keys. *)
Theorem list_within_table c os s :
  run os (NewLRU c) = Ok tt s →
  NoDup (items s)
  ∧ (∀ p, p ∈ items s →
       ∃ it, item_of s p = Some it ∧ lookup s !! Key it = Some p)
  ∧ (length (items s) ≤ size (lookup s))%nat.
Proof.
  intros Hrun. destruct (reachable_wf _ _ _ Hrun) as [Hwf _].
  pose proof (wf_nodup _ Hwf) as Hnd.
  assert (∀ p, p ∈ items s →
            ∃ it, item_of s p = Some it ∧ lookup s !! Key it = Some p) as Hback.
  { intros p Hp. destruct (wf_items _ Hwf p Hp) as (it & Hh & Hm).
    exists it. unfold item_of. by rewrite Hh. }
  split_and!; [done..|].
  set (key_of := λ p, match item_of s p with Some it => Key it | None => None end).
  rewrite <-length_map_to_list.
  rewrite <-(length_fmap (λ p, (key_of p, p)) (items s)).
  apply submseteq_length, NoDup_submseteq.
  - apply NoDup_fmap_2_strong; [|done]. by intros p1 p2 _ _ [= _ ->].
  - intros [k p] (p' & [= -> ->] & Hin)%list_elem_of_fmap.
    apply elem_of_map_to_list. destruct (Hback p' Hin) as (it & Hit & Hm).
    subst key_of. simpl. by rewrite Hit.
Qed.

(** ** The touch counter and the capacity *)

Lemma int_wrap_succ z : int_add (int_wrap z) 1 = int_wrap (z + 1).
Proof.
  unfold int_add, int_wrap.
  replace ((z + 2 ^ 63) mod 2 ^ 64 - 2 ^ 63 + 1 + 2 ^ 63)
    with ((z + 2 ^ 63) mod 2 ^ 64 + 1) by lia.
  rewrite Zplus_mod_idemp_l. f_equal. f_equal. lia.
Qed.

Lemma call_count o s s' n :
  wf s →
  call o s = Ok tt s' →
  count s = int_wrap (Z.of_nat n) →
  count s' = int_wrap (Z.of_nat (touches [o] n)).
Proof.
  intros Hwf Hcall Hn. destruct o as [k v|k|k|k| |]; simpl in *.
  - destruct (set_wf s k v Hwf) as (r & s1 & Hset & _ & _ & Hcount & _).
    unfold Set_ in Hcall. rewrite (bind_ok _ _ _ _ _ Hset) in Hcall.
    injection Hcall as <-. rewrite Hcount, Hn, int_wrap_succ. f_equal. lia.
  - destruct (Get_wf s k Hwf) as (r & s1 & Hget & _ & _ & Hcount & _).
    rewrite (bind_ok _ _ _ _ _ Hget) in Hcall.
    injection Hcall as <-. rewrite Hcount, Hn, int_wrap_succ. f_equal. lia.
  - destruct (Read_wf s k Hwf) as (r & Hread).
    rewrite (bind_ok _ _ _ _ _ Hread) in Hcall. by injection Hcall as <-.
  - destruct (Remove_wf s k Hwf) as (r & s1 & Hrem & _ & _ & Hcount).
    rewrite (bind_ok _ _ _ _ _ Hrem) in Hcall.
    injection Hcall as <-. by rewrite Hcount.
  - destruct s as [h l m c0 n0]. rewrite Purge_ok in Hcall.
    by injection Hcall as <-.
  - by injection Hcall as <-.
Qed.

Lemma touches_cons o os n : touches (o :: os) n = touches os (touches [o] n).
Proof. by destruct o. Qed.

Lemma run_count os : ∀ s s' n,
  wf s →
  run os s = Ok tt s' →
  count s = int_wrap (Z.of_nat n) →
  count s' = int_wrap (Z.of_nat (touches os n)).
Proof.
  induction os as [|o os IH]; intros s s' n Hwf Hrun Hn.
  - simpl in *. by injection Hrun as <-.
  - destruct (call_wf o s Hwf) as (s1 & Hcall & Hwf1 & _).
    rewrite (run_cons_ok _ _ _ _ Hcall) in Hrun.
    rewrite touches_cons. apply (IH s1); [done..|].
    by apply (call_count o s).
Qed.

(** X11.  The touch counter of a reachable state is the number of [Set] and
    [Get] calls since the last [Purge] (since [NewLRU] when there was
    none), as a Go [int]: every such call counts once, hit or miss, with or
    without an eviction, and [Read], [Remove] and [Len] do not count. *)
Theorem count_counts_touches c os s :
  run os (NewLRU c) = Ok tt s →
  count s = int_wrap (Z.of_nat (touches os 0))
  ∧ (Z.of_nat (touches os 0) ≤ int_max → count s = Z.of_nat (touches os 0)).
Proof.
  intros Hrun.
  assert (count s = int_wrap (Z.of_nat (touches os 0))) as Hcount.
  { apply (run_count os (NewLRU c)); [apply NewLRU_wf|done|].
    by destruct (NewLRU_empty c) as (_ & _ & _ & ->). }
  split; [done|]. intros Hmax. rewrite Hcount. apply int_wrap_id.
  unfold int_min. lia.
Qed.

(** X12.  The capacity field never changes after [NewLRU], and it is always
    between 1 and the greatest [int]. *)
Theorem capacity_fixed c os s :
  run os (NewLRU c) = Ok tt s →
  capacity s = capacity (NewLRU c) ∧ 1 ≤ capacity s ≤ int_max.
Proof.
  intros Hrun. destruct (reachable_wf _ _ _ Hrun) as [Hwf Hcap].
  split; [done|]. split; [apply (wf_capacity _ Hwf)|].
  rewrite Hcap, NewLRU_capacity. case_bool_decide.
  - by vm_compute.
  - apply int_wrap_range.
Qed.

(** X13.  For every requested capacity but the least [int], [NewLRU] makes
    the empty engine with touch counter 0 whose capacity field is the
    default 16 when the request is at most 1 and the request minus one
    otherwise. *)
Theorem NewLRU_in_range c :
  int_min < c ≤ int_max →
  NewLRU c
  = mkLRU [] [] ∅ (if bool_decide (c ≤ 1) then defaultCAPACITY else c - 1) 0.
Proof.
  intros Hc. case_bool_decide as Hc1.
  - unfold NewLRU, int_sub. simpl.
    rewrite int_wrap_id by (unfold int_min, int_max in *; lia).
    by rewrite bool_decide_eq_true_2 by lia.
  - apply NewLRU_ge2. lia.
Qed.

(** ** The most recently used entry *)

(** X14.  In a reachable state, after [Get] of a cached key, a [Set] of a
    new key never evicts that key: it is still linked and reads back with
    its value. *)
Theorem most_recent_survives c os s k p it k' v' :
  run os (NewLRU c) = Ok tt s →
  cached_at s k p it →
  lookup s !! k' = None →
  ∃ s1 s2, Get k s = Ok (Value it, None) s1
    ∧ Set_ k' v' s1 = Ok (true, None) s2
    ∧ p ∈ items s2
    ∧ Read k s2 = Ok (Value it) s2.
Proof.
  intros Hrun (Hk & Hin & Hp & Hkey) Hk'.
  destruct (reachable_wf _ _ _ Hrun) as [Hwf _].
  pose proof (wf_nodup _ Hwf) as Hnd.
  destruct (Get_wf s k Hwf) as (val & s1 & Hget & Hwf1 & _).
  destruct s as [h l m c0 n]. simpl in *.
  assert (p < length h)%nat as Hlt by (by eapply lookup_lt_Some).
  rewrite (Get_hit _ _ _ _ _ _ p true it) in Hget by done.
  injection Hget as <- <-.
  set (it1 := mkLRUItem (Key it) (Value it) (int_add (Count it) 1)) in *.
  set (h1 := <[p := mkElement true (AnyItem it1)]> h) in *.
  set (l1 := p :: filter (λ q, q ≠ p) l) in *.
  assert (h1 !! p = Some (mkElement true (AnyItem it1))) as Hp1
    by (subst h1; by rewrite list_lookup_insert_eq).
  destruct (set_outcome_total _ k' v' Hwf1) as (isNew & s2 & Hset & Hout).
  exists (mkLRU h1 l1 m c0 (int_add n 1)), s2.
  rewrite (Get_hit _ _ _ _ _ _ p true it) by done. fold it1 h1 l1.
  split; [done|].
  inversion Hout as [? ? ? ? ? ? ? Hm Hfit|? ? ? ? ? ? ? q itq Hm Hfull Hlast Hq
                    |? ? ? ? ? ? ? ? ? ? Hm|? ? ? ? ? ? ? ? ? ? ? ? Hm
                    |? ? ? ? ? ? ? ? ? Hm]; subst; try congruence.
  - split; [done|]. split; [right; by left|].
    apply (Read_hit _ _ p true it1); simpl.
    + rewrite lookup_insert_ne; [done|congruence].
    + by apply lookup_app_l_Some.
  - assert (q ≠ p) as Hne.
    { subst l1. rewrite last_cons in Hlast.
      destruct (last (filter (λ q, q ≠ p) l)) as [y|] eqn:Hl.
      - injection Hlast as <-. apply last_Some_elem_of in Hl.
        apply list_elem_of_filter in Hl. tauto.
      - apply last_None in Hl. rewrite Hl in Hfull. simpl in Hfull.
        pose proof (wf_capacity _ Hwf1). simpl in *. lia. }
    destruct (wf_last _ _ _ _ _ _ _ Hwf1 Hlast Hq) as [Hqin Hmq].
    split; [done|]. split.
    + right. apply list_elem_of_filter. split; [done|]. by left.
    + apply (Read_hit _ _ p true it1); simpl.
      * rewrite lookup_insert_ne, lookup_delete_ne; [done|congruence..].
      * apply lookup_app_l_Some. by rewrite list_lookup_insert_ne.
Qed.

(** ** [popFront], [evict] and [dump] *)

Lemma filter_ne_head (p : ptr) (rest : list ptr) :
  NoDup (p :: rest) → filter (λ q, q ≠ p) (p :: rest) = rest.
Proof.
  intros [Hp _]%NoDup_cons.
  rewrite filter_cons_False by (intros Hne; by apply Hne).
  by apply filter_ne_notin.
Qed.

Lemma popFront_ok h l m c n p it :
  head l = Some p →
  h !! p = Some (mkElement true (AnyItem it)) →
  popFront (mkLRU h l m c n)
  = Ok p (mkLRU (<[p := mkElement false (AnyItem it)]> h)
            (filter (λ q, q ≠ p) l) m c n).
Proof.
  intros Hhead Hp. unfold popFront, list_Remove, list_Front. unfold_access.
  rewrite Hhead. simpl. by rewrite Hp.
Qed.

Lemma dump_take_ok h l m c n p it :
  head l = Some p →
  h !! p = Some (mkElement true (AnyItem it)) →
  dump_take (mkLRU h l m c n)
  = Ok (Some p) (mkLRU (<[p := mkElement false (AnyItem it)]> h)
                   (filter (λ q, q ≠ p) l) m c n).
Proof.
  intros Hhead Hp. unfold dump_take, list_Remove, list_Front. unfold_access.
  rewrite Hhead. simpl. by rewrite Hp.
Qed.

(** X15.  On a reachable state [popFront] panics when the Ordered Index is
    empty; otherwise it returns the item of the front element and unlinks
    that element, while the Lookup Table is left as it was and still maps
    the item's key to it. *)
Theorem popFront_effect c os s :
  run os (NewLRU c) = Ok tt s →
  (items s = [] → popFront s = Panic)
  ∧ (∀ p rest, items s = p :: rest →
       ∃ s' it, popFront s = Ok p s'
         ∧ item_of s p = Some it
         ∧ items s' = rest
         ∧ lookup s' = lookup s
         ∧ lookup s' !! Key it = Some p
         ∧ item_of s' p = Some it).
Proof.
  intros Hrun. destruct (reachable_wf _ _ _ Hrun) as [Hwf _].
  pose proof (wf_nodup _ Hwf) as Hnd.
  destruct s as [h l m c0 n]. simpl in *. split.
  - by intros ->.
  - intros p rest ->.
    destruct (wf_items _ Hwf p) as (it & Hp & Hm); [by left|]. simpl in *.
    exists (mkLRU (<[p := mkElement false (AnyItem it)]> h) rest m c0 n), it.
    rewrite (popFront_ok _ _ _ _ _ p it) by done.
    rewrite filter_ne_head by done.
    unfold item_of. simpl. rewrite Hp.
    rewrite list_lookup_insert_eq by (by eapply lookup_lt_Some). done.
Qed.

(** X16.  On a reachable state [evict] panics when the Ordered Index is
    empty; otherwise it unlinks the element at the back, deletes the key of
    its item from the Lookup Table and clears the item's key and value, and
    it leaves no handle of the Lookup Table outside the Ordered Index if
    there was none. *)
Theorem evict_effect c os s :
  run os (NewLRU c) = Ok tt s →
  (items s = [] → evict s = Panic)
  ∧ (∀ front q, items s = front ++ [q] →
       ∃ s' itq, evict s = Ok tt s'
         ∧ item_of s q = Some itq
         ∧ items s' = front
         ∧ lookup s' = delete (Key itq) (lookup s)
         ∧ item_of s' q = Some (mkLRUItem None None (Count itq))
         ∧ (tidy s → tidy s')).
Proof.
  intros Hrun. destruct (reachable_wf _ _ _ Hrun) as [Hwf _].
  pose proof (wf_nodup _ Hwf) as Hnd.
  destruct s as [h l m c0 n]. simpl in *. split.
  - by intros ->.
  - intros front q ->.
    destruct (wf_items _ Hwf q) as (itq & Hq & Hm).
    { apply elem_of_app. right. by left. }
    simpl in *.
    exists (mkLRU (<[q := mkElement false
                            (AnyItem (mkLRUItem None None (Count itq)))]> h)
              front (delete (Key itq) m) c0 n), itq.
    rewrite (evict_ok _ _ _ _ _ q itq) by (done || apply last_snoc).
    rewrite filter_ne_snoc by done.
    unfold item_of. simpl. rewrite Hq.
    rewrite list_lookup_insert_eq by (by eapply lookup_lt_Some).
    split_and!; [done..|].
    intros Ht. rewrite <-(filter_ne_snoc q front) by done.
    by eapply tidy_evict.
Qed.

Lemma dump_loop_ok m c n l : ∀ h acc,
  NoDup l →
  (∀ p, p ∈ l → ∃ it, h !! p = Some (mkElement true (AnyItem it))) →
  ∃ h', dump_loop (length l) acc (mkLRU h l m c n)
        = Ok (Some (acc ++ l), None) (mkLRU h' [] m c n)
    ∧ ∀ p, elem_Value <$> h' !! p = elem_Value <$> h !! p.
Proof.
  induction l as [|p rest IH]; intros h acc Hnd Hcells.
  - exists h. simpl. by rewrite app_nil_r.
  - destruct (Hcells p) as (it & Hp); [by left|].
    pose proof Hnd as [Hpr Hnd']%NoDup_cons.
    destruct (IH (<[p := mkElement false (AnyItem it)]> h) (acc ++ [p]) Hnd')
      as (h' & Hloop & Hval).
    { intros q Hq. destruct (Hcells q) as (itq & Hq'); [by right|].
      exists itq. rewrite list_lookup_insert_ne; [done|]. by intros ->. }
    exists h'. split.
    + simpl.
      rewrite (bind_ok _ _ _ _ _
                 (dump_take_ok h (p :: rest) m c n p it eq_refl Hp)).
      rewrite filter_ne_head by done. rewrite Hloop.
      by rewrite <-app_assoc.
    + intros q. rewrite Hval. destruct (decide (q = p)) as [->|Hne].
      * rewrite list_lookup_insert_eq by (by eapply lookup_lt_Some).
        by rewrite Hp.
      * by rewrite list_lookup_insert_ne.
Qed.

Lemma item_of_Value s s' p :
  elem_Value <$> heap s' !! p = elem_Value <$> heap s !! p →
  item_of s' p = item_of s p.
Proof.
  unfold item_of.
  destruct (heap s' !! p) as [[b' v']|], (heap s !! p) as [[b v]|];
    simpl; intros [= ->] || intros [=]; done.
Qed.

(** X17.  On a reachable state [dump] returns, with a nil error, the items
    of the Ordered Index from front to back, and leaves the Ordered Index
    empty; the items themselves, the Lookup Table, the touch counter and
    the capacity are untouched, so that every key still reads back as
    before while the length is 0. *)
Theorem dump_drains c os s :
  run os (NewLRU c) = Ok tt s →
  ∃ s', dump s = Ok (Some (items s), None) s'
    ∧ items s' = []
    ∧ lookup s' = lookup s ∧ count s' = count s ∧ capacity s' = capacity s
    ∧ (∀ p, item_of s' p = item_of s p)
    ∧ (∀ k, ∃ value, Read k s = Ok value s ∧ Read k s' = Ok value s').
Proof.
  intros Hrun. destruct (reachable_wf _ _ _ Hrun) as [Hwf _].
  destruct s as [h l m c0 n].
  destruct (dump_loop_ok m c0 n l h [] (wf_nodup _ Hwf)) as (h' & Hloop & Hval).
  { intros p Hp. destruct (wf_items _ Hwf p Hp) as (it & Hh & _). by exists it. }
  assert (∀ p, item_of (mkLRU h' [] m c0 n) p = item_of (mkLRU h l m c0 n) p)
    as Hitems by (intros p; by apply item_of_Value).
  exists (mkLRU h' [] m c0 n). split_and!; [|done..|].
  - unfold dump, list_Len, bind, gets. simpl. by rewrite Nat2Z.id.
  - intros k. simpl. destruct (m !! k) as [p|] eqn:Hk.
    + destruct (wf_lookup _ Hwf k p Hk) as (b & it & Hp & _). simpl in *.
      exists (Value it). split; [by eapply Read_hit|].
      specialize (Hval p). rewrite Hp in Hval. simpl in Hval.
      destruct (h' !! p) as [[b' v']|] eqn:Hp'; simpl in Hval; [|done].
      injection Hval as ->. by eapply Read_hit.
    + exists None. split; by apply Read_miss.
Qed.

(** ** A key that [Remove] has taken out still answers *)

(** X18.  In a reachable state, after [Remove] of a cached key (which
    returns true), [Get] of that key still returns the entry's value with a
    nil error, and the key's element stays outside the Ordered Index. *)
Theorem removed_key_still_answers c os s k p it :
  run os (NewLRU c) = Ok tt s →
  cached_at s k p it →
  ∃ s1 s2, Remove k s = Ok true s1
    ∧ list_Len s1 = list_Len s - 1
    ∧ Get k s1 = Ok (Value it, None) s2
    ∧ (p ∉ items s2)
    ∧ list_Len s2 = list_Len s1.
Proof.
  intros Hrun (Hk & Hin & Hp & Hkey).
  destruct (reachable_wf _ _ _ Hrun) as [Hwf _].
  pose proof (wf_nodup _ Hwf) as Hnd.
  destruct s as [h l m c0 n]. simpl in *.
  assert (p < length h)%nat as Hlt by (by eapply lookup_lt_Some).
  do 2 eexists.
  rewrite (Remove_linked _ _ _ _ _ _ p (AnyItem it)) by done.
  split; [done|]. split.
  { unfold list_Len. simpl. pose proof (filter_ne_length p l Hnd Hin). lia. }
  rewrite (Get_hit _ _ _ _ _ _ p false it)
    by (by apply NoDup_filter || done || by rewrite list_lookup_insert_eq).
  split; [done|]. simpl. split; [|done].
  rewrite list_elem_of_filter. tauto.
Qed.

(** ** The test helper [hasPositiveLRUS] *)

Lemma byte_bit_spec mask i :
  byte_bit mask i = 1 ↔ (i < 8)%nat ∧ Z.testbit mask (Z.of_nat i) = true.
Proof.
  unfold byte_bit. rewrite Z.shiftl_1_l.
  destruct (decide (i < 8)%nat) as [Hi|Hi].
  - rewrite Z.mod_small
      by (split; [apply Z.pow_nonneg; lia|apply Z.pow_lt_mono_r; lia]).
    assert (Z.shiftr (Z.land mask (2 ^ Z.of_nat i)) (Z.of_nat i)
            = Z.b2z (Z.testbit mask (Z.of_nat i))) as ->.
    { apply Z.bits_inj'. intros j Hj.
      rewrite Z.shiftr_spec, Z.land_spec, Z.pow2_bits_eqb by lia.
      destruct (Z.testbit mask (Z.of_nat i)) eqn:Hbit; simpl.
      - change 1 with (2 ^ 0). rewrite Z.pow2_bits_eqb by lia.
        destruct (Z.eqb_spec (Z.of_nat i) (j + Z.of_nat i)) as [Heq|Hne],
                 (Z.eqb_spec 0 j) as [Hj0|Hj0]; try lia.
        subst j. by rewrite Z.add_0_l, Hbit.
      - rewrite Z.testbit_0_l.
        destruct (Z.eqb_spec (Z.of_nat i) (j + Z.of_nat i)) as [Heq|Hne];
          [|by rewrite andb_false_r].
        replace j with 0 by lia. by rewrite Z.add_0_l, Hbit. }
    destruct (Z.testbit mask (Z.of_nat i)); simpl; split; try done.
    + intros [_ ?]. done.
  - replace (2 ^ Z.of_nat i) with (2 ^ (Z.of_nat i - 8) * 2 ^ 8)
      by (rewrite <-Z.pow_add_r by lia; f_equal; lia).
    rewrite Z.mod_mul by lia. rewrite Z.land_0_r, Z.shiftr_0_l.
    split; [done|]. intros [? _]. done.
Qed.

Lemma hasPositiveLRUS_from_false s mask : ∀ i,
  hasPositiveLRUS_from i s mask = false
  ↔ ∃ j lru, s !! j = Some lru ∧ byte_bit mask (i + j) = 1 ∧ capacity lru < 0.
Proof.
  induction s as [|lru s IH]; intros i; simpl.
  - split; [done|]. by intros (j & lru & Hj & _).
  - destruct (bool_decide (byte_bit mask i = 1)
              && bool_decide (capacity lru < 0)) eqn:Hhere.
    + apply andb_true_iff in Hhere as [Hb%bool_decide_eq_true Hc%bool_decide_eq_true].
      split; [|done]. intros _. exists 0%nat, lru. by rewrite Nat.add_0_r.
    + rewrite IH. split.
      * intros (j & lru' & Hj & Hb & Hc). exists (S j), lru'.
        split_and!; [done| |done]. by replace (i + S j)%nat with (S i + j)%nat by lia.
      * intros ([|j] & lru' & Hj & Hb & Hc); simpl in Hj.
        -- injection Hj as <-. rewrite Nat.add_0_r in Hb.
           rewrite (bool_decide_eq_true_2 _ Hb), (bool_decide_eq_true_2 _ Hc) in Hhere.
           done.
        -- exists j, lru'. split_and!; [done| |done].
           by replace (S i + j)%nat with (i + S j)%nat by lia.
Qed.

(** X19.  [hasPositiveLRUS] returns false exactly when, among the first
    eight engines of the slice, one whose bit is set in the mask has a
    negative capacity field; the engines from index 8 on are never looked
    at, since the bit is computed on a byte. *)
Theorem hasPositiveLRUS_false s mask :
  hasPositiveLRUS s mask = false
  ↔ ∃ i lru, (i < 8)%nat ∧ s !! i = Some lru
             ∧ Z.testbit mask (Z.of_nat i) = true ∧ capacity lru < 0.
Proof.
  unfold hasPositiveLRUS. rewrite hasPositiveLRUS_from_false. split.
  - intros (j & lru & Hj & Hb & Hc). simpl in Hb.
    apply byte_bit_spec in Hb as [Hlt Hbit]. by exists j, lru.
  - intros (i & lru & Hlt & Hi & Hbit & Hc). exists i, lru.
    split_and!; [done| |done]. simpl. by apply byte_bit_spec.
Qed.

(** X20.  On engines made by [NewLRU], whatever the requested capacities
    and the mask, [hasPositiveLRUS] returns true. *)
Theorem hasPositiveLRUS_NewLRU cs mask :
  hasPositiveLRUS (NewLRU <$> cs) mask = true.
Proof.
  apply not_false_iff_true. intros Hfalse.
  apply hasPositiveLRUS_from_false in Hfalse as (j & lru & Hj & _ & Hc).
  apply list_lookup_fmap_Some in Hj as (c & -> & _).
  pose proof (NewLRU_capacity_pos c). lia.
Qed.

End Cache.

(** ** The properties on concrete engines: integer keys and values *)

(** C1, as written, fails for a capacity of 1: [NewLRU(1)] has the default
    budget, and a second key is kept next to the first. *)
Lemma capacity_one_keeps_two :
  ¬ fills_then_evicts_oldest 1 [(Some 1, Some 10)] (Some 2) (Some 20).
Proof.
  intros (s & Hrun & _ & _ & s' & Hset & Hlen & _).
  vm_compute in Hrun. injection Hrun as <-.
  vm_compute in Hset. injection Hset as <-.
  vm_compute in Hlen. discriminate Hlen.
Qed.

(** Nor can [N] be the capacity field: [NewLRU(3)] stores 2, and with two
    keys set a third one is inserted without eviction. *)
Lemma capacity_field_holds_one_more :
  ∃ s s', run [OpSet (Some 1) (Some 10); OpSet (Some 2) (Some 20)] (NewLRU 3)
          = Ok tt s
    ∧ capacity s = 2 ∧ Len s = Ok 2 s
    ∧ Set_ (Some 3) (Some 30) s = Ok (true, None) s'
    ∧ Len s' = Ok 3 s'
    ∧ Read (Some 1) s' = Ok (Some 10) s'.
Proof.
  do 2 eexists. split; [vm_compute; reflexivity|].
  split; [vm_compute; reflexivity|].
  split; [vm_compute; reflexivity|].
  split; [vm_compute; reflexivity|].
  split; vm_compute; reflexivity.
Qed.

Lemma fill_then_evict_witness :
  fills_then_evicts_oldest 2
    [(Some 1, Some 10); (Some 2, Some 20)]
    (Some 3) (Some 30).
Proof.
  apply (fill_then_evict
           [(Some 1, Some 10); (Some 2, Some 20)]
           (Some 3) (Some 30)).
  - apply (bool_decide_unpack _). vm_compute. exact I.
  - apply (bool_decide_unpack _). vm_compute. exact I.
  - simpl. lia.
  - vm_compute. discriminate.
Defined.

(** C2, after [Set(1, 10); Remove(1)] on [NewLRU(8)]: the Ordered Index is
    empty, the Lookup Table still has the key, and its handle is an element
    that is no longer in the list. *)
Theorem Remove_leaves_stale_handle :
  ∃ s, run [OpSet (Some 1) (Some 10); OpRemove (Some 1)]
         (NewLRU 8) = Ok tt s
    ∧ Len s = Ok 0 s
    ∧ size (lookup s) = 1%nat
    ∧ ∃ p, lookup s !! Some 1 = Some p
        ∧ (p ∉ items s)
        ∧ heap s !! p
          = Some (mkElement false (AnyItem (mkLRUItem (Some 1) (Some 10) 1))).
Proof.
  eexists. split; [vm_compute; reflexivity|].
  split_and!; [vm_compute; reflexivity..|].
  exists 0%nat. split_and!; [vm_compute; reflexivity| |vm_compute; reflexivity].
  apply not_elem_of_nil.
Qed.

(** C3, after [Set(1, 10)] on [NewLRU(8)]: [Remove(1)] returns true and the
    length goes from 1 to 0, but the Lookup Table keeps the key: [Read(1)]
    still returns 10, and a second [Remove(1)] returns true again while it
    removes nothing. *)
Theorem Remove_keeps_lookup_entry :
  ∃ s1 s2, run [OpSet (Some 1) (Some 10)] (NewLRU 8) = Ok tt s1
    ∧ Len s1 = Ok 1 s1
    ∧ Remove (Some 1) s1 = Ok true s2
    ∧ Len s2 = Ok 0 s2
    ∧ lookup s2 !! Some 1 = Some 0%nat
    ∧ Read (Some 1) s2 = Ok (Some 10) s2
    ∧ Remove (Some 1) s2 = Ok true s2.
Proof.
  do 2 eexists. split; [vm_compute; reflexivity|].
  split; [vm_compute; reflexivity|].
  split; [vm_compute; reflexivity|].
  split_and!; vm_compute; reflexivity.
Qed.

(** C4, after [Set(1, 10); Set(2, 20)] on [NewLRU(2)]: key 1 is cached and
    is the least recently used; [Set(1, 30)] returns [isNew = false] and a
    nil error, but it has evicted key 1 itself before the update:
    afterwards key 1 is in neither structure and only key 2 is left. *)
Theorem Set_evicts_the_key_it_updates :
  ∃ s s', run [OpSet (Some 1) (Some 10); OpSet (Some 2) (Some 20)]
            (NewLRU 2) = Ok tt s
    ∧ Read (Some 1) s = Ok (Some 10) s
    ∧ Len s = Ok 2 s
    ∧ Set_ (Some 1) (Some 30) s = Ok (false, None) s'
    ∧ lookup s' !! Some 1 = None
    ∧ Read (Some 1) s' = Ok None s'
    ∧ items s' = [1%nat]
    ∧ item_of s' 1 = Some (mkLRUItem (Some 2) (Some 20) 2)
    ∧ Len s' = Ok 1 s'.
Proof.
  do 2 eexists. split; [vm_compute; reflexivity|].
  split; [vm_compute; reflexivity|].
  split; [vm_compute; reflexivity|].
  split; [vm_compute; reflexivity|].
  split_and!; vm_compute; reflexivity.
Qed.

Lemma Read_pure_witness :
  ∃ s, run [OpSet (Some 1) (Some 10); OpGet (Some 1)]
         (NewLRU 8) = Ok tt s
    ∧ ∃ value, Read (Some 1) s = Ok value s
        ∧ ∀ ks, run (OpRead <$> ks) s = Ok tt s.
Proof.
  eexists. split; [vm_compute; reflexivity|].
  pose proof (Read_pure 8 [OpSet (Some 1) (Some 10); OpGet (Some 1)]) as Hpure.
  specialize (Hpure _ ltac:(vm_compute; reflexivity) (Some 1)).
  destruct Hpure as (value & Hread & _ & _ & Hreads).
  exists value. split; [exact Hread|exact Hreads].
Defined.


Lemma Purge_clears_witness :
  ∃ s' s'', Purge (@NewLRU Z _ _ Z 8) = Ok tt s'
    ∧ Set_ (Some 1) (Some 10) s' = Ok (true, None) s''
    ∧ Read (Some 1) s'' = Ok (Some 10) s''.
Proof.
  destruct (Purge_clears (@NewLRU Z _ _ Z 8))
    as (s' & Hpurge & _ & _ & _ & _ & _ & _ & Hreuse).
  destruct (Hreuse ltac:(vm_compute; discriminate) (Some 1) (Some 10))
    as (s'' & Hset & _ & Hread).
  exists s', s''. split; [exact Hpurge|]. split; [exact Hset|exact Hread].
Defined.

Lemma Len_bounded_witness :
  ∃ s, run [OpSet (Some 1) (Some 10); OpSet (Some 2) (Some 20);
            OpSet (Some 3) (Some 30)] (NewLRU 2) = Ok tt s
    ∧ ∃ n, Len s = Ok n s ∧ n ≤ 2.
Proof.
  eexists. split; [vm_compute; reflexivity|].
  pose proof (Len_bounded 2
                [OpSet (Some 1) (Some 10); OpSet (Some 2) (Some 20);
                 OpSet (Some 3) (Some 30)]) as Hbound.
  specialize (Hbound _ ltac:(vm_compute; reflexivity)).
  destruct Hbound as (n & Hlen & _ & Hc).
  exists n. split; [exact Hlen|]. apply Hc. split; vm_compute; discriminate.
Defined.

(** ** Instances of the further properties *)

Lemma Set_new_key_witness :
  ∃ s, run [OpSet (Some 1) (Some 10)] (NewLRU 8) = Ok tt s
    ∧ ∃ s' p, Set_ (Some 2) (Some 20) s = Ok (true, None) s'
        ∧ head (items s') = Some p
        ∧ Read (Some 2) s' = Ok (Some 20) s'.
Proof.
  eexists. split; [vm_compute; reflexivity|].
  pose proof (Set_new_key 8 [OpSet (Some 1) (Some 10)]) as Hnew.
  specialize (Hnew _ (Some 2) (Some 20) ltac:(vm_compute; reflexivity)).
  specialize (Hnew ltac:(vm_compute; reflexivity)).
  destruct Hnew as (s' & p & Hset & _ & Hhead & _ & Hread).
  exists s', p. split; [exact Hset|]. split; [exact Hhead|exact Hread].
Defined.

Lemma Set_length_witness :
  ∃ s, run [OpSet (Some 1) (Some 10); OpSet (Some 2) (Some 20)] (NewLRU 2)
       = Ok tt s
    ∧ ∃ isNew s', Set_ (Some 2) (Some 21) s = Ok (isNew, None) s'
        ∧ list_Len s'
          = list_Len s + (if isNew then 1 else 0)
            - (if bool_decide (list_Len s > capacity s) then 1 else 0).
Proof.
  eexists. split; [vm_compute; reflexivity|].
  pose proof (Set_length 2 [OpSet (Some 1) (Some 10); OpSet (Some 2) (Some 20)])
    as Hlen.
  specialize (Hlen _ (Some 2) (Some 21) ltac:(vm_compute; reflexivity)).
  destruct Hlen as (isNew & s' & Hset & _ & Hlen).
  exists isNew, s'. split; [exact Hset|exact Hlen].
Defined.

Lemma Set_round_trip_witness :
  ∃ s, run [OpSet (Some 1) (Some 10); OpSet (Some 2) (Some 20)] (NewLRU 8)
       = Ok tt s
    ∧ ∃ isNew s', Set_ (Some 1) (Some 11) s = Ok (isNew, None) s'
        ∧ Read (Some 1) s' = Ok (Some 11) s'.
Proof.
  eexists. split; [vm_compute; reflexivity|].
  pose proof (Set_round_trip 8
                [OpSet (Some 1) (Some 10); OpSet (Some 2) (Some 20)]) as Hrt.
  specialize (Hrt _ (Some 1) (Some 11) ltac:(vm_compute; reflexivity)).
  specialize (Hrt ltac:(intros p _ _; vm_compute; discriminate)).
  destruct Hrt as (isNew & s' & Hset & Hread & _).
  exists isNew, s'. split; [exact Hset|exact Hread].
Defined.

Lemma Set_evicts_own_key_witness :
  ∃ s, run [OpSet (Some 1) (Some 10); OpSet (Some 2) (Some 20)] (NewLRU 2)
       = Ok tt s
    ∧ ∃ s', Set_ (Some 1) (Some 11) s = Ok (false, None) s'
        ∧ Read (Some 1) s' = Ok None s'.
Proof.
  eexists. split; [vm_compute; reflexivity|].
  pose proof (Set_evicts_own_key 2
                [OpSet (Some 1) (Some 10); OpSet (Some 2) (Some 20)]) as Hown.
  specialize (Hown _ (Some 1) (Some 11) 0%nat ltac:(vm_compute; reflexivity)).
  specialize (Hown ltac:(vm_compute; reflexivity) ltac:(vm_compute; reflexivity)
                   ltac:(vm_compute; reflexivity)).
  destruct Hown as (s' & Hset & _ & _ & _ & Hread).
  exists s'. split; [exact Hset|exact Hread].
Defined.

Lemma eviction_takes_the_oldest_witness :
  ∃ s, run [OpSet (Some 1) (Some 10); OpSet (Some 2) (Some 20)] (NewLRU 2)
       = Ok tt s
    ∧ ∃ s' q itq front, Set_ (Some 3) (Some 30) s = Ok (true, None) s'
        ∧ list_Back s = Some q ∧ item_of s q = Some itq
        ∧ items s' = length (heap s) :: front
        ∧ lookup s' !! Key itq = None.
Proof.
  eexists. split; [vm_compute; reflexivity|].
  pose proof (eviction_takes_the_oldest 2
                [OpSet (Some 1) (Some 10); OpSet (Some 2) (Some 20)]) as Hev.
  specialize (Hev _ (Some 3) (Some 30) ltac:(vm_compute; reflexivity)).
  specialize (Hev ltac:(vm_compute; reflexivity) ltac:(vm_compute; reflexivity)).
  destruct Hev as (s' & q & itq & front & Hset & Hback & Hitem & _ & Hitems
                   & Hgone & _).
  exists s', q, itq, front.
  split; [exact Hset|]. split; [exact Hback|]. split; [exact Hitem|].
  split; [exact Hitems|exact Hgone].
Defined.

Lemma Set_existing_promotes_witness :
  ∃ s, run [OpSet (Some 1) (Some 10); OpSet (Some 2) (Some 20)] (NewLRU 8)
       = Ok tt s
    ∧ ∃ s', Set_ (Some 1) (Some 11) s = Ok (false, None) s'
        ∧ head (items s') = Some 0%nat.
Proof.
  eexists. split; [vm_compute; reflexivity|].
  pose proof (Set_existing_promotes 8
                [OpSet (Some 1) (Some 10); OpSet (Some 2) (Some 20)]) as Hpr.
  specialize (Hpr _ (Some 1) (Some 11) 0%nat (mkLRUItem (Some 1) (Some 10) 1)
                  ltac:(vm_compute; reflexivity)).
  specialize (Hpr ltac:(split; [vm_compute; reflexivity|];
                        split; [apply (bool_decide_unpack _); vm_compute; exact I|];
                        split; vm_compute; reflexivity)).
  specialize (Hpr ltac:(intros Hover; vm_compute in Hover; discriminate Hover)).
  destruct Hpr as (s' & Hset & _ & Hhead).
  exists s'. split; [exact Hset|exact Hhead].
Defined.

Lemma Get_keeps_entries_witness :
  ∃ s, run [OpSet (Some 1) (Some 10); OpSet (Some 2) (Some 20)] (NewLRU 8)
       = Ok tt s
    ∧ ∃ value s', Get (Some 1) s = Ok (value, None) s'
        ∧ lookup s' = lookup s ∧ list_Len s' = list_Len s.
Proof.
  eexists. split; [vm_compute; reflexivity|].
  pose proof (Get_keeps_entries 8
                [OpSet (Some 1) (Some 10); OpSet (Some 2) (Some 20)]) as Hget.
  specialize (Hget _ (Some 1) ltac:(vm_compute; reflexivity)).
  destruct Hget as (value & s' & Hget & Hlk & _ & Hlen & _).
  exists value, s'. split; [exact Hget|]. split; [exact Hlk|exact Hlen].
Defined.

Lemma Remove_effect_witness :
  ∃ s, run [OpSet (Some 1) (Some 10); OpSet (Some 2) (Some 20)] (NewLRU 8)
       = Ok tt s
    ∧ ∃ ok s', Remove (Some 1) s = Ok ok s'
        ∧ (ok = true ↔ is_Some (lookup s !! Some 1))
        ∧ lookup s' = lookup s.
Proof.
  eexists. split; [vm_compute; reflexivity|].
  pose proof (Remove_effect 8
                [OpSet (Some 1) (Some 10); OpSet (Some 2) (Some 20)]) as Hrem.
  specialize (Hrem _ (Some 1) ltac:(vm_compute; reflexivity)).
  destruct Hrem as (ok & s' & Hrem & Hok & Hlk & _).
  exists ok, s'. split; [exact Hrem|]. split; [exact Hok|exact Hlk].
Defined.

Lemma removed_key_stays_out_witness :
  ∃ s s', run [OpSet (Some 1) (Some 10); OpRemove (Some 1)] (NewLRU 8) = Ok tt s
    ∧ run [OpSet (Some 1) (Some 11); OpGet (Some 1); OpSet (Some 2) (Some 20)] s
      = Ok tt s'
    ∧ lookup s' !! Some 1 = Some 0%nat
    ∧ (0%nat ∉ items s').
Proof.
  do 2 eexists. split; [vm_compute; reflexivity|].
  split; [vm_compute; reflexivity|].
  edestruct (removed_key_stays_out 8
               [OpSet (Some 1) (Some 10); OpRemove (Some 1)])
    with (k := Some 1) (p := 0%nat)
         (os' := [OpSet (Some 1) (Some 11); OpGet (Some 1);
                  OpSet (Some 2) (Some 20)])
    as [Hk Hout].
  - vm_compute. reflexivity.
  - vm_compute. reflexivity.
  - apply (bool_decide_unpack _). vm_compute. exact I.
  - intros Hin.
    repeat (apply elem_of_cons in Hin as [Hin|Hin]; [discriminate Hin|]).
    apply elem_of_nil in Hin. exact Hin.
  - vm_compute. reflexivity.
  - destruct Hout as [Hp _]. split; [exact Hk|exact Hp].
Defined.

Lemma list_within_table_witness :
  ∃ s, run [OpSet (Some 1) (Some 10); OpSet (Some 2) (Some 20);
            OpRemove (Some 1)] (NewLRU 8) = Ok tt s
    ∧ NoDup (items s) ∧ (length (items s) ≤ size (lookup s))%nat.
Proof.
  eexists. split; [vm_compute; reflexivity|].
  pose proof (list_within_table 8
                [OpSet (Some 1) (Some 10); OpSet (Some 2) (Some 20);
                 OpRemove (Some 1)]) as Hin.
  specialize (Hin _ ltac:(vm_compute; reflexivity)).
  destruct Hin as (Hnd & _ & Hle). split; [exact Hnd|exact Hle].
Defined.

Lemma bijection_without_Remove_witness :
  ∃ s, run [OpSet (Some 1) (Some 10); OpGet (Some 1); OpSet (Some 2) (Some 20)]
         (NewLRU 8) = Ok tt s
    ∧ tidy s ∧ size (lookup s) = length (items s).
Proof.
  eexists. split; [vm_compute; reflexivity|].
  apply (bijection_without_Remove 8
           [OpSet (Some 1) (Some 10); OpGet (Some 1); OpSet (Some 2) (Some 20)]).
  - intros k Hin.
    repeat (apply elem_of_cons in Hin as [Hin|Hin]; [discriminate Hin|]).
    apply elem_of_nil in Hin. exact Hin.
  - vm_compute. reflexivity.
Defined.

Lemma count_counts_touches_witness :
  ∃ s, run [OpSet (Some 1) (Some 10); OpGet (Some 2); OpRead (Some 1);
            OpRemove (Some 1); OpGet (Some 1)] (NewLRU 8) = Ok tt s
    ∧ count s = 3.
Proof.
  eexists. split; [vm_compute; reflexivity|].
  pose proof (count_counts_touches 8
                [OpSet (Some 1) (Some 10); OpGet (Some 2); OpRead (Some 1);
                 OpRemove (Some 1); OpGet (Some 1)]) as Hcount.
  specialize (Hcount _ ltac:(vm_compute; reflexivity)).
  destruct Hcount as [_ Hcount].
  exact (Hcount ltac:(vm_compute; discriminate)).
Defined.

Lemma capacity_fixed_witness :
  ∃ s, run [OpSet (Some 1) (Some 10); OpPurge; OpSet (Some 2) (Some 20)]
         (NewLRU 8) = Ok tt s
    ∧ capacity s = 7 ∧ 1 ≤ capacity s ≤ int_max.
Proof.
  eexists. split; [vm_compute; reflexivity|].
  pose proof (capacity_fixed 8
                [OpSet (Some 1) (Some 10); OpPurge; OpSet (Some 2) (Some 20)])
    as Hcap.
  exact (Hcap _ ltac:(vm_compute; reflexivity)).
Defined.

Lemma NewLRU_in_range_witness :
  @NewLRU Z _ _ Z 8 = mkLRU [] [] ∅ 7 0.
Proof.
  pose proof (@NewLRU_in_range Z _ _ Z 8) as Hnew.
  specialize (Hnew ltac:(split; [vm_compute; reflexivity|vm_compute; discriminate])).
  exact Hnew.
Defined.

Lemma most_recent_survives_witness :
  ∃ s, run [OpSet (Some 1) (Some 10); OpSet (Some 2) (Some 20)] (NewLRU 2)
       = Ok tt s
    ∧ ∃ s1 s2, Get (Some 1) s = Ok (Some 10, None) s1
        ∧ Set_ (Some 3) (Some 30) s1 = Ok (true, None) s2
        ∧ Read (Some 1) s2 = Ok (Some 10) s2.
Proof.
  eexists. split; [vm_compute; reflexivity|].
  pose proof (most_recent_survives 2
                [OpSet (Some 1) (Some 10); OpSet (Some 2) (Some 20)]) as Hmr.
  specialize (Hmr _ (Some 1) 0%nat (mkLRUItem (Some 1) (Some 10) 1)
                  (Some 3) (Some 30) ltac:(vm_compute; reflexivity)).
  specialize (Hmr ltac:(split; [vm_compute; reflexivity|];
                        split; [apply (bool_decide_unpack _); vm_compute; exact I|];
                        split; vm_compute; reflexivity)).
  specialize (Hmr ltac:(vm_compute; reflexivity)).
  destruct Hmr as (s1 & s2 & Hget & Hset & _ & Hread).
  exists s1, s2. split; [exact Hget|]. split; [exact Hset|exact Hread].
Defined.

Lemma popFront_effect_witness :
  ∃ s, run [OpSet (Some 1) (Some 10); OpSet (Some 2) (Some 20)] (NewLRU 8)
       = Ok tt s
    ∧ ∃ s', popFront s = Ok 1%nat s' ∧ items s' = [0%nat]
        ∧ lookup s' = lookup s.
Proof.
  eexists. split; [vm_compute; reflexivity|].
  pose proof (popFront_effect 8
                [OpSet (Some 1) (Some 10); OpSet (Some 2) (Some 20)]) as Hpop.
  specialize (Hpop _ ltac:(vm_compute; reflexivity)).
  destruct Hpop as [_ Hpop].
  destruct (Hpop 1%nat [0%nat] eq_refl) as (s' & it & Hrun & _ & Hitems & Hlk & _).
  exists s'. split; [exact Hrun|]. split; [exact Hitems|exact Hlk].
Defined.

Lemma evict_effect_witness :
  ∃ s, run [OpSet (Some 1) (Some 10); OpSet (Some 2) (Some 20)] (NewLRU 8)
       = Ok tt s
    ∧ ∃ s' (itq : @LRUItem Z Z), evict s = Ok tt s' ∧ items s' = [1%nat]
        ∧ lookup s' = delete (Key itq) (lookup s).
Proof.
  eexists. split; [vm_compute; reflexivity|].
  pose proof (evict_effect 8
                [OpSet (Some 1) (Some 10); OpSet (Some 2) (Some 20)]) as Hev.
  specialize (Hev _ ltac:(vm_compute; reflexivity)).
  destruct Hev as [_ Hev].
  destruct (Hev [1%nat] 0%nat eq_refl) as (s' & itq & Hrun & _ & Hitems & Hlk & _).
  exists s', itq. split; [exact Hrun|]. split; [exact Hitems|exact Hlk].
Defined.

Lemma dump_drains_witness :
  ∃ s, run [OpSet (Some 1) (Some 10); OpSet (Some 2) (Some 20)] (NewLRU 8)
       = Ok tt s
    ∧ ∃ s', dump s = Ok (Some [1%nat; 0%nat], None) s' ∧ items s' = []
        ∧ lookup s' = lookup s.
Proof.
  eexists. split; [vm_compute; reflexivity|].
  pose proof (dump_drains 8
                [OpSet (Some 1) (Some 10); OpSet (Some 2) (Some 20)]) as Hdump.
  specialize (Hdump _ ltac:(vm_compute; reflexivity)).
  destruct Hdump as (s' & Hrun & Hitems & Hlk & _).
  exists s'. split; [exact Hrun|]. split; [exact Hitems|exact Hlk].
Defined.

Lemma removed_key_still_answers_witness :
  ∃ s, run [OpSet (Some 1) (Some 10); OpSet (Some 2) (Some 20)] (NewLRU 8)
       = Ok tt s
    ∧ ∃ s1 s2, Remove (Some 1) s = Ok true s1
        ∧ Get (Some 1) s1 = Ok (Some 10, None) s2
        ∧ (0%nat ∉ items s2).
Proof.
  eexists. split; [vm_compute; reflexivity|].
  pose proof (removed_key_still_answers 8
                [OpSet (Some 1) (Some 10); OpSet (Some 2) (Some 20)]) as Hans.
  specialize (Hans _ (Some 1) 0%nat (mkLRUItem (Some 1) (Some 10) 1)
                   ltac:(vm_compute; reflexivity)).
  specialize (Hans ltac:(split; [vm_compute; reflexivity|];
                         split; [apply (bool_decide_unpack _); vm_compute; exact I|];
                         split; vm_compute; reflexivity)).
  destruct Hans as (s1 & s2 & Hrem & _ & Hget & Hout & _).
  exists s1, s2. split; [exact Hrem|]. split; [exact Hget|exact Hout].
Defined.
